(** * sharescreen: the room relay of [app.py]

    A shallow embedding of the FastAPI application of [src/app.py]: the
    process-wide [connections] dictionary, the WebSocket handler
    [websocket_endpoint] that joins a room, relays every received text to
    the other connections of the room and removes itself when it ends, and
    the three HTTP GET handlers.

    Handlers are coroutines scheduled by one event loop: a handler runs
    without interruption from one [await] to the next.  The model is a
    transition system whose steps are exactly those stretches of code.  A
    state holds the dictionary, for every handler task the [await] it is
    suspended at, and the log of the [send_text] calls made.  What the
    network and the event loop decide is the label of a step: a client
    connects, an awaited call returns (with the received text), or it
    raises.  An [await] that completes at once is the case where no other
    step comes in between.

    The dictionary is a [gmap] from room identifier to a list of WebSocket
    objects; a list is mutated in place in the source, which the model
    renders by rebinding the key, the list object of a room being the same
    from the first join on.  The [for] loop holds an index into that live
    list, as Python's list iterator does. *)

From Stdlib Require Import ZArith String Ascii List Lia.
From Stdlib Require Strings.Byte.
From stdpp Require Import base option list gmap strings.

Local Open Scope nat_scope.

(** ** Python values *)

(** A [WebSocket] object.  Starlette's connection classes compare by
    identity ([__eq__ = object.__eq__]), so an object is its allocation
    number. *)
Definition chan := nat.

(** The exceptions that reach the handler. *)
Inductive exn :=
| WebSocketDisconnect   (* the client closed, raised by receive_text *)
| ConnectionError       (* builtin: transport failure *)
| RuntimeError          (* e.g. a send on a connection already closed *)
| CancelledError        (* the task was cancelled at an await *)
| KeyError              (* connections[room_id] on a missing key *)
| ValueError.           (* list.remove(x) with x not in the list *)

Global Instance exn_eq_dec : EqDecision exn.
Proof. solve_decision. Defined.

(** [except (WebSocketDisconnect, ConnectionError)] of line 156. *)
Definition caught (e : exn) : bool :=
  match e with
  | WebSocketDisconnect | ConnectionError => true
  | _ => false
  end.

(** The global [connections = {}] of line 32: room identifier to the list
    of the WebSocket objects of the room, in order of arrival. *)
Abbreviation registry := (gmap string (list chan)).

(** [list.remove(x)]: drops the first item equal to [x]; [None] stands for
    the [ValueError] Python raises when there is none. *)
Fixpoint list_remove (x : chan) (l : list chan) : option (list chan) :=
  match l with
  | [] => None
  | y :: l' =>
      if decide (y = x) then Some l'
      else match list_remove x l' with
           | Some r => Some (y :: r)
           | None => None
           end
  end.

(** ** The registry operations of [websocket_endpoint] *)

(** Lines 146-148:
<<
    if room_id not in connections:
        connections[room_id] = []
    connections[room_id].append(websocket)
>> *)
Definition join (room_id : string) (websocket : chan)
    (connections : registry) : registry :=
  let connections :=
    match connections !! room_id with
    | None => <[room_id := []]> connections
    | Some _ => connections
    end in
  alter (λ l : list chan, l ++ [websocket]) room_id connections.

(** Line 159: [connections[room_id].remove(websocket)].  The subscript
    raises [KeyError] on an unknown room, [remove] raises [ValueError] when
    the object is not in the list; otherwise the list is updated in place. *)
Definition leave (room_id : string) (websocket : chan)
    (connections : registry) : exn + registry :=
  match connections !! room_id with
  | None => inl KeyError
  | Some l =>
      match list_remove websocket l with
      | None => inl ValueError
      | Some l' => inr (<[room_id := l']> connections)
      end
  end.

(** Lines 153-155, the list iterator of the [for] statement.  A Python list
    iterator is an index into the live list: [next] yields the item at the
    index and advances, or stops when the index is past the end.  The loop
    body sends to the item unless it is the handler's own object, so the
    handler runs on from index [i] to the first item that differs from
    [websocket]; the result is that item and the index the iterator is left
    at, or [None] when the iterator is exhausted. *)
Fixpoint scan (websocket : chan) (rest : list chan) (i : nat)
    : option (chan * nat) :=
  match rest with
  | [] => None
  | connection :: rest' =>
      if decide (connection ≠ websocket) then Some (connection, S i)
      else scan websocket rest' (S i)
  end.

Definition for_next (websocket : chan) (l : list chan) (i : nat)
    : option (chan * nat) :=
  scan websocket (drop i l) i.

(** ** The server as a transition system *)

(** Where a [websocket_endpoint] task is suspended. *)
Inductive pc :=
| Accepting                          (* line 145: await websocket.accept() *)
| Receiving                          (* line 152: await websocket.receive_text() *)
| Sending (data : string) (i : nat)  (* line 155: await connection.send_text(data),
                                        the iterator of line 153 standing at index i *)
| Finished (outcome : option exn).   (* returned, or left by an exception *)

(** A call [connection.send_text(data)] made by the handler of [sender]. *)
Record send_call := SendCall {
  sender : chan;
  target : chan;
  payload : string;
}.

Global Instance send_call_eq_dec : EqDecision send_call.
Proof. solve_decision. Defined.

(** The process: the [connections] dictionary, one handler task per
    WebSocket object (with its [room_id] argument), and the [send_text]
    calls made so far, oldest first. *)
Record system := System {
  connections : registry;
  tasks : gmap chan (string * pc);
  calls : list send_call;
}.

Definition startup : system := System ∅ ∅ [].

Definition suspend (websocket : chan) (room_id : string) (p : pc)
    (s : system) : system :=
  System (connections s) (<[websocket := (room_id, p)]> (tasks s)) (calls s).

(** Lines 158-159, the [finally] clause.  [outcome] is how the [try]
    statement would end without it; an exception of the clause itself
    replaces that outcome. *)
Definition finally_clause (websocket : chan) (room_id : string)
    (outcome : option exn) (s : system) : system :=
  match leave room_id websocket (connections s) with
  | inr connections' =>
      System connections'
        (<[websocket := (room_id, Finished outcome)]> (tasks s)) (calls s)
  | inl e =>
      suspend websocket room_id (Finished (Some e)) s
  end.

(** Lines 156-159: an exception [e] leaves the [while] loop.  The [except]
    clause logs and swallows a [WebSocketDisconnect] or [ConnectionError];
    the [finally] clause runs in either case. *)
Definition unwind (websocket : chan) (room_id : string) (e : exn)
    (s : system) : system :=
  finally_clause websocket room_id (if caught e then None else Some e) s.

(** Lines 153-155 from iterator index [i] up to the next [await]: either a
    [send_text] call to the next other connection, or, the list being
    exhausted, [receive_text] of the next round of [while True].  The list
    object of the room never changes identity (the dictionary entry is only
    assigned when the key is new), so the iterator's list is the one bound
    to [room_id]. *)
Definition relay (websocket : chan) (room_id : string) (data : string)
    (i : nat) (s : system) : system :=
  match connections s !! room_id with
  | None => unwind websocket room_id KeyError s
  | Some l =>
      match for_next websocket l i with
      | Some (connection, i') =>
          System (connections s)
            (<[websocket := (room_id, Sending data i')]> (tasks s))
            (calls s ++ [SendCall websocket connection data])
      | None => suspend websocket room_id Receiving s
      end
  end.

(** What the event loop and the network do to the process. *)
Inductive event :=
| Connect (websocket : chan) (room_id : string)
    (* a client opens /ws/{room_id}: a handler task is created *)
| Accepted (websocket : chan)             (* accept() returns *)
| Received (websocket : chan) (data : string)  (* receive_text() returns data *)
| Sent (websocket : chan)                 (* the pending send_text() returns *)
| Raised (websocket : chan) (e : exn).    (* the pending await raises e *)

(** The handler an event resumes. *)
Definition subject (ev : event) : chan :=
  match ev with
  | Connect websocket _ | Accepted websocket | Received websocket _
  | Sent websocket | Raised websocket _ => websocket
  end.

(** Lines 145-159, [websocket_endpoint(websocket, room_id)]: one stretch
    of the handler's code, from the [await] it is suspended at ([p]) and
    what that [await] comes back with ([ev]) to the next [await] or to the
    end.  [None]: the handler is not waiting for this.
<<
    await websocket.accept()
    if room_id not in connections:
        connections[room_id] = []
    connections[room_id].append(websocket)
    try:
        while True:
            data = await websocket.receive_text()
            for connection in connections[room_id]:
                if connection != websocket:
                    await connection.send_text(data)
    except (WebSocketDisconnect, ConnectionError) as e:
        logger.info(f"WebSocket disconnected: {e}")
    finally:
        connections[room_id].remove(websocket)
>> *)
Definition websocket_endpoint (websocket : chan) (room_id : string)
    (p : pc) (ev : event) (s : system) : option system :=
  match ev with
  | Connect _ _ => None
  | Accepted _ =>
      match p with
      | Accepting =>
          Some (System (join room_id websocket (connections s))
                  (<[websocket := (room_id, Receiving)]> (tasks s)) (calls s))
      | _ => None
      end
  | Received _ data =>
      match p with
      | Receiving => Some (relay websocket room_id data 0 s)
      | _ => None
      end
  | Sent _ =>
      match p with
      | Sending data i => Some (relay websocket room_id data i s)
      | _ => None
      end
  | Raised _ e =>
      match p with
      | Accepting => Some (suspend websocket room_id (Finished (Some e)) s)
      | Receiving | Sending _ _ => Some (unwind websocket room_id e s)
      | Finished _ => None
      end
  end.

(** One step of the event loop: a new connection is routed to a new
    handler task, which starts by awaiting [accept]; any other event
    resumes the task it is for. *)
Definition step (ev : event) (s : system) : option system :=
  match ev with
  | Connect websocket room_id =>
      match tasks s !! websocket with
      | None => Some (suspend websocket room_id Accepting s)
      | Some _ => None
      end
  | _ =>
      match tasks s !! subject ev with
      | Some (room_id, p) => websocket_endpoint (subject ev) room_id p ev s
      | None => None
      end
  end.

Fixpoint run (evs : list event) (s : system) : option system :=
  match evs with
  | [] => Some s
  | ev :: evs' =>
      match step ev s with
      | Some s' => run evs' s'
      | None => None
      end
  end.

(** The states the server can be in. *)
Definition reachable (s : system) : Prop :=
  ∃ evs, run evs startup = Some s.

(** The handler is inside its [try] statement. *)
Definition joined (p : pc) : Prop :=
  match p with
  | Receiving | Sending _ _ => True
  | Accepting | Finished _ => False
  end.

(** The [send_text] calls made between two states. *)
Definition new_calls (s s' : system) : list send_call :=
  drop (length (calls s)) (calls s').

(** How often [data] was sent to [connection] in a list of calls. *)
Definition deliveries (connection : chan) (data : string)
    (cs : list send_call) : nat :=
  length (filter (λ c, target c = connection ∧ payload c = data) cs).

(** The scenario of the specification: P1, P2, P3 join room "abc" in that
    order. *)
Definition P1 : chan := 1.
Definition P2 : chan := 2.
Definition P3 : chan := 3.

Definition three_joined : list event :=
  [ Connect P1 "abc"; Accepted P1; Connect P2 "abc"; Accepted P2;
    Connect P3 "abc"; Accepted P3 ].

(** The connections a broadcast of [websocket] is meant for: the others of
    the room's list, in list order. *)
Definition peers (websocket : chan) (l : list chan) : list chan :=
  filter (λ connection, connection ≠ websocket) l.

(** The registry and the tasks agree: the lists hold exactly the objects of
    the handlers that are inside their [try] statement, each once, in the
    room the handler was called with. *)
Record consistent (s : system) : Prop := Consistent {
  rooms_NoDup : ∀ room_id l, connections s !! room_id = Some l → NoDup l;
  member_task : ∀ room_id l websocket,
    connections s !! room_id = Some l → websocket ∈ l →
    ∃ p, tasks s !! websocket = Some (room_id, p) ∧ joined p;
  task_member : ∀ websocket room_id p,
    tasks s !! websocket = Some (room_id, p) → joined p →
    ∃ l, connections s !! room_id = Some l ∧ websocket ∈ l;
}.

(** ** The HTTP handlers *)

(** The rest of the process the HTTP handlers can touch: next to the relay
    state, the operating system's random source, as the bytes it is going
    to return and how many were taken. *)
Record world := World {
  process : system;
  urandom : nat → Byte.byte;
  drawn : nat;
}.

(** Handler code: a state transformer of the world. *)
Definition handler (A : Type) : Type := world → A * world.

Global Instance handler_ret : MRet handler := λ A a w, (a, w).
Global Instance handler_bind : MBind handler :=
  λ A B k m w, let (a, w') := m w in k a w'.

(** [os.urandom(n)] *)
Definition os_urandom (n : nat) : handler (list Byte.byte) :=
  λ w, (map (urandom w) (seq (drawn w) n),
        World (process w) (urandom w) (drawn w + n)).

Local Open Scope Z_scope.

(** [int.from_bytes(bytes, byteorder='big')] *)
Definition int_from_bytes (bytes : list Byte.byte) : Z :=
  fold_left (λ acc b, acc * 256 + Z.of_N (Byte.to_N b)) bytes 0.

(** The standard library's [uuid.UUID(bytes=..., version=4)]: the variant
    and version bits of RFC 4122 are forced onto the 128-bit integer.
<<
    int &= ~(0xc000 << 48)
    int |= 0x8000 << 48
    int &= ~(0xf000 << 64)
    int |= version << 76
>> *)
Definition set_version4 (int : Z) : Z :=
  let int := Z.land int (Z.lnot (Z.shiftl 0xc000 48)) in
  let int := Z.lor int (Z.shiftl 0x8000 48) in
  let int := Z.land int (Z.lnot (Z.shiftl 0xf000 64)) in
  Z.lor int (Z.shiftl 4 76).

(** [uuid.uuid4()]: [UUID(bytes=os.urandom(16), version=4)], as its [int]. *)
Definition uuid4 : handler Z :=
  bytes ← os_urandom 16;
  mret (set_version4 (int_from_bytes bytes)).

Definition hex_digit (d : Z) : ascii :=
  match d with
  | 0 => "0" | 1 => "1" | 2 => "2" | 3 => "3" | 4 => "4" | 5 => "5"
  | 6 => "6" | 7 => "7" | 8 => "8" | 9 => "9" | 10 => "a" | 11 => "b"
  | 12 => "c" | 13 => "d" | 14 => "e" | _ => "f"
  end%char.

(** The digits of [n] in base 16, most significant first. *)
Fixpoint hex_digits (fuel : nat) (n : Z) : list ascii :=
  match fuel with
  | O => []
  | S fuel' =>
      if decide (n < 16) then [hex_digit n]
      else hex_digits fuel' (n / 16) ++ [hex_digit (n mod 16)]
  end.

(** ['%x' % n] for [0 <= n]; a number has no more hex digits than bits. *)
Definition format_x (n : Z) : list ascii :=
  hex_digits (S (Z.to_nat (Z.log2 n))) n.

(** ['%032x' % n]: zero-padded on the left to at least 32 characters. *)
Definition format_032x (n : Z) : list ascii :=
  let digits := format_x n in
  repeat "0"%char (32 - length digits)%nat ++ digits.

(** Python's slice [s[i:j]]. *)
Definition slice {A} (i j : nat) (s : list A) : list A :=
  take (j - i)%nat (drop i s).

(** [UUID.__str__]:
<<
    hex = '%032x' % self.int
    return '%s-%s-%s-%s-%s' % (hex[:8], hex[8:12], hex[12:16], hex[16:20], hex[20:])
>> *)
Definition uuid_groups (int : Z) : list (list ascii) :=
  let hex := format_032x int in
  [slice 0 8 hex; slice 8 12 hex; slice 12 16 hex; slice 16 20 hex; drop 20 hex].

Definition hyphenate (groups : list (list ascii)) : list ascii :=
  match groups with
  | [] => []
  | g :: gs => g ++ concat (map (λ g', "-"%char :: g') gs)
  end.

Definition uuid_str (int : Z) : string :=
  string_of_list_ascii (hyphenate (uuid_groups int)).

Local Close Scope Z_scope.

(** The part of a Starlette [Request] the handlers read.
    [request.url.scheme] parses the URL that Starlette puts together from
    the ASGI scope and the [Host] header; the parser (the standard
    library's [urlsplit]) raises [ValueError] for some [Host] headers, one
    with an unbalanced bracket for instance.  Starlette is not part of the
    repository: the outcome of the expression is taken as given, the scheme
    or [None] when it raises.  The headers come with their names in lower
    case, in order. *)
Record request := Request {
  url_scheme : option string;
  headers : list (string * string);
}.

(** [request.headers.get(key, default)]: the first header of that name. *)
Definition headers_get (key default : string) (hs : list (string * string))
    : string :=
  match find (λ kv, bool_decide (kv.1 = key)) hs with
  | Some kv => kv.2
  | None => default
  end.

Inductive context_value :=
| CtxRequest (r : request)
| CtxText (text : string).

(** [templates.TemplateResponse(name, context)]; rendering is Jinja2's. *)
Record template_response := TemplateResponse {
  template : string;
  context : list (string * context_value);
}.

Definition context_get (key : string) (r : template_response)
    : option context_value :=
  snd <$> find (λ kv, bool_decide (kv.1 = key)) (context r).

(** Line 59:
<<
    base_url = f"{request.url.scheme}://{request.headers.get('host', 'localhost:8088')}"
>>
    The [ValueError] of [request.url.scheme] is raised out of it. *)
Definition base_url (r : request) : exn + string :=
  match url_scheme r with
  | None => inl ValueError
  | Some scheme =>
      inr (scheme +:+ "://" +:+ headers_get "host" "localhost:8088" (headers r))
  end.

(** Lines 58-71: [GET /].  The identifier is drawn first; an exception of
    line 59 then leaves the handler without a response. *)
Definition generate_room (r : request)
    : handler (exn + template_response) :=
  int ← uuid4;
  let room_id := uuid_str int in
  match base_url r with
  | inl e => mret (inl e)
  | inr base_url =>
      let share_link := base_url +:+ "/share/" +:+ room_id in
      let view_link := base_url +:+ "/view/" +:+ room_id in
      mret (inr (TemplateResponse "share.html"
                   [ ("request"%string, CtxRequest r);
                     ("title"%string, CtxText "Screen Sharing Links");
                     ("share_link"%string, CtxText share_link);
                     ("view_link"%string, CtxText view_link) ]))
  end.

(** Lines 89-99: [GET /share/{room_id}]. *)
Definition share_screen (r : request) (room_id : string)
    : handler template_response :=
  mret (TemplateResponse "base.html"
          [ ("request"%string, CtxRequest r);
            ("title"%string, CtxText ("Sharing Room " +:+ room_id));
            ("content"%string, CtxText ("
        <p>Sharing screen for room <strong>" +:+ room_id +:+ "</strong>.</p>
        <p>Screen sharing functionality coming soon.</p>
        ")) ]).

(** Lines 117-127: [GET /view/{room_id}]. *)
Definition view_screen (r : request) (room_id : string)
    : handler template_response :=
  mret (TemplateResponse "base.html"
          [ ("request"%string, CtxRequest r);
            ("title"%string, CtxText ("Viewing Room " +:+ room_id));
            ("content"%string, CtxText ("
        <p>Viewing screen for room <strong>" +:+ room_id +:+ "</strong>.</p>
        <p>Screen viewing functionality coming soon.</p>
        ")) ]).

(** The three GET routes. *)
Inductive route :=
| Root
| Share (room_id : string)
| View (room_id : string).

Definition http_get (rt : route) (r : request)
    : handler (exn + template_response) :=
  match rt with
  | Root => generate_room r
  | Share room_id => response ← share_screen r room_id; mret (inr response)
  | View room_id => response ← view_screen r room_id; mret (inr response)
  end.

(** The characters of a lower-case hexadecimal numeral. *)
Definition is_hex_digit (c : ascii) : bool :=
  existsb (Ascii.eqb c) (list_ascii_of_string "0123456789abcdef").

(** The random source returning the bytes 0, 1, 2, ... *)
Definition counting_bytes (k : nat) : Byte.byte :=
  default Byte.x00 (Byte.of_N (N.of_nat (k mod 256))).

Definition sample_request : request :=
  Request (Some "https"%string) [("host"%string, "example.org"%string)].

(** The state of the scenario, once the three have joined. *)
Definition abc_room : system := default startup (run three_joined startup).

(** Two rooms: P1 and P2 in "abc", a third connection in "xyz". *)
Definition two_rooms_joined : list event :=
  [ Connect P1 "abc"; Accepted P1; Connect P3 "xyz"; Accepted P3;
    Connect P2 "abc"; Accepted P2 ].

Definition two_rooms : system := default startup (run two_rooms_joined startup).

(** The calls made by one handler. *)
Definition calls_of (websocket : chan) (cs : list send_call) : list send_call :=
  filter (λ c, sender c = websocket) cs.

(** A broadcast of [data] by [websocket] is under way or just over: [l0]
    was the room's list when the text arrived, [cs] are the calls made
    since.  The list has only grown, and the handler has called
    [send_text] for the other connections among the first [j] of it, the
    iterator standing at [j], or having run off the end. *)
Definition broadcasting (websocket : chan) (room_id data : string)
    (l0 : list chan) (cs : list send_call) (s : system) : Prop :=
  ∃ l_now j,
    connections s !! room_id = Some l_now
    ∧ l0 `prefix_of` l_now
    ∧ j ≤ length l_now
    ∧ calls_of websocket cs
      = map (λ c, SendCall websocket c data) (peers websocket (take j l_now))
    ∧ (tasks s !! websocket = Some (room_id, Sending data j)
       ∨ (tasks s !! websocket = Some (room_id, Receiving) ∧ length l0 ≤ j)).

(** Reading a hexadecimal numeral back. *)
Definition digit_value (c : ascii) : Z :=
  match c with
  | "0" => 0 | "1" => 1 | "2" => 2 | "3" => 3 | "4" => 4 | "5" => 5
  | "6" => 6 | "7" => 7 | "8" => 8 | "9" => 9 | "a" => 10 | "b" => 11
  | "c" => 12 | "d" => 13 | "e" => 14 | "f" => 15 | _ => 0
  end%char%Z.

Definition hex_value (digits : list ascii) : Z :=
  fold_left (λ acc c, acc * 16 + digit_value c)%Z digits 0%Z.

(** A fourth client has opened a connection that is not accepted yet. *)
Definition abc_room_pending : system :=
  default startup (run [Connect 4 "abc"] abc_room).

(** P2 has left the room of the scenario. *)
Definition abc_room_P2_gone : system :=
  default startup (run [Raised P2 WebSocketDisconnect] abc_room).

(** The texts [receive_text] has returned to one handler, oldest first. *)
Definition received_by (websocket : chan) (evs : list event) : list string :=
  omap (λ ev, match ev with
              | Received w data => if decide (w = websocket) then Some data else None
              | _ => None
              end) evs.

(** Every handler in the middle of a broadcast is sending the text it
    received last. *)
Definition holding (evs : list event) (s : system) : Prop :=
  ∀ w room_id data i,
    tasks s !! w = Some (room_id, Sending data i) →
    last (received_by w evs) = Some data.

(** P2 of the scenario has relayed "a" and is relaying "b". *)
Definition second_text : list event :=
  three_joined ++ [Received P2 "a"; Sent P2; Sent P2; Received P2 "b"].

(** During and after one broadcast of [websocket], [cs] being the calls
    made since its text arrived: no connection was sent to twice, every
    connection sent to has been accepted, and the connections the iterator
    has still to visit have not been sent to. *)
Definition sent_once (websocket : chan) (cs : list send_call) (s : system)
    : Prop :=
  let sent_to := target <$> calls_of websocket cs in
  NoDup sent_to
  ∧ (∀ c, c ∈ sent_to → ∃ r p, tasks s !! c = Some (r, p) ∧ p ≠ Accepting)
  ∧ (∃ r p, tasks s !! websocket = Some (r, p) ∧ p ≠ Accepting)
  ∧ (∀ r d j, tasks s !! websocket = Some (r, Sending d j) →
       ∃ l, connections s !! r = Some l ∧ ∀ c, c ∈ drop j l → c ∉ sent_to).

(** A room's list [l_now] seen from an earlier list [l]: what is left of
    [l], in the order it had, followed by connections that were not in
    [l]; and no connection of [l] is waiting for [accept]. *)
Definition in_arrival_order (l l_now : list chan) (s : system) : Prop :=
  (∃ kept new, l_now = kept ++ new ∧ kept `sublist_of` l
               ∧ ∀ c, c ∈ new → c ∉ l)
  ∧ ∀ c, c ∈ l → ∃ r p, tasks s !! c = Some (r, p) ∧ p ≠ Accepting.

(** Reading an identifier back, as [uuid.UUID(hex=text).int] does: the
    hyphens are dropped and the rest is read as a hexadecimal numeral. *)
Definition read_uuid (text : string) : Z :=
  hex_value (filter (λ c, c ≠ "-"%char) (list_ascii_of_string text)).

(** A request without a [Host] header. *)
Definition bare_request : request := Request (Some "http"%string) [].

(** A request whose URL does not parse. *)
Definition broken_request : request :=
  Request None [("host"%string, "[::1"%string)].

(** A request with two [Host] headers. *)
Definition two_hosts_request : request :=
  Request (Some "https"%string)
    [ ("accept"%string, "*/*"%string); ("host"%string, "a.example"%string);
      ("host"%string, "b.example"%string) ].

(** A broadcast of [websocket] is in progress: its handler is suspended in
    a [send_text] of line 155. *)
Definition relaying (websocket : chan) (s : system) : Prop :=
  ∃ room_id data i, tasks s !! websocket = Some (room_id, Sending data i).

(** A broadcast of [data] by [websocket], [l0] being the room's list when
    the text arrived and [cs] the calls made since.  Every call of the
    handler carries [data] to another connection.  While the broadcast is
    in progress the list still starts with [l0], and the others among the
    connections of [l0] that the iterator has passed have been sent to;
    once it is over, all others of [l0] have. *)
Definition serving (websocket : chan) (room_id data : string)
    (l0 : list chan) (cs : list send_call) (s : system) : Prop :=
  (∀ call, call ∈ calls_of websocket cs →
           payload call = data ∧ target call ≠ websocket)
  ∧ ((∃ j ext,
        tasks s !! websocket = Some (room_id, Sending data j)
        ∧ connections s !! room_id = Some (l0 ++ ext)
        ∧ ∀ c, c ∈ take j l0 → c ≠ websocket →
               c ∈ target <$> calls_of websocket cs)
     ∨ (¬ relaying websocket s
        ∧ ∀ c, c ∈ l0 → c ≠ websocket →
               c ∈ target <$> calls_of websocket cs)).

(** Bit [i] of the sixteen bytes [os.urandom] returns next, read as one
    number with the first byte in front: it is bit [i mod 8] of the byte
    that has [i / 8] bytes behind it. *)
Definition random_bit (w : world) (i : Z) : bool :=
  N.testbit (Byte.to_N (urandom w (drawn w + (15 - Z.to_nat (i / 8)))))
            (Z.to_N (i mod 8)).

(** The bits [UUID(version=4)] overwrites: the variant in 62 and 63, the
    version in 76 to 79. *)
Definition fixed_bits : list Z := [62; 63; 76; 77; 78; 79]%Z.

(** P2 of the scenario relays "hello" while a fourth client connects and
    fails its handshake. *)
Definition hello_with_failed_accept : list event :=
  [ Received P2 "hello"; Connect 4 "abc"; Sent P2;
    Raised 4 ConnectionError; Sent P2 ].

(** * Properties *)

(** ** Lists: [remove] and the iterator *)

Section list_facts.
Implicit Types (x y websocket : chan) (l rest : list chan).

Lemma list_remove_None x l : list_remove x l = None ↔ x ∉ l.
Proof.
  induction l as [|y l IH]; simpl.
  - split; [intros _; apply not_elem_of_nil | done].
  - destruct (decide (y = x)) as [->|Hne].
    + split; [done | intros H; exfalso; apply H; left].
    + destruct (list_remove x l) as [r|].
      * split; [done|]. intros H. exfalso.
        assert (x ∉ l) as Hx by (intros ?; apply H; by right).
        apply IH in Hx. done.
      * split; [|done]. intros _ [->|Hin]%elem_of_cons; [done|].
        by apply IH in Hin.
Qed.

Lemma list_remove_is_Some x l : x ∈ l → is_Some (list_remove x l).
Proof.
  intros Hin. destruct (list_remove x l) eqn:E; [by eexists|].
  by apply list_remove_None in E.
Qed.

Lemma list_remove_elem_of x l l' y :
  list_remove x l = Some l' → y ∈ l' → y ∈ l.
Proof.
  revert l'. induction l as [|z l IH]; intros l'; simpl; [done|].
  destruct (decide (z = x)) as [->|Hne].
  - intros [= <-] ?. by right.
  - destruct (list_remove x l) as [r|]; [|done].
    intros [= <-] [->|Hin]%elem_of_cons; [left | right; by eapply IH].
Qed.

Lemma list_remove_keeps x l l' y :
  list_remove x l = Some l' → y ∈ l → y ≠ x → y ∈ l'.
Proof.
  revert l'. induction l as [|z l IH]; intros l'; simpl; [done|].
  destruct (decide (z = x)) as [->|Hne].
  - intros [= <-] [->|Hin]%elem_of_cons ?; done.
  - destruct (list_remove x l) as [r|]; [|done].
    intros [= <-] [->|Hin]%elem_of_cons ?; [left | right; by eapply IH].
Qed.

Lemma list_remove_NoDup x l l' :
  list_remove x l = Some l' → NoDup l → NoDup l' ∧ x ∉ l'.
Proof.
  revert l'. induction l as [|z l IH]; intros l'; simpl; [done|].
  intros Hrm [Hz Hnd]%NoDup_cons.
  destruct (decide (z = x)) as [->|Hne].
  - injection Hrm as <-. done.
  - destruct (list_remove x l) as [r|] eqn:E; [|done].
    injection Hrm as <-. destruct (IH r eq_refl Hnd) as [Hr Hx].
    split.
    + apply NoDup_cons. split; [|done].
      intros Hin. apply Hz. by eapply list_remove_elem_of.
    + intros [->|Hin]%elem_of_cons; done.
Qed.

Lemma list_remove_singleton x : list_remove x [x] = Some [].
Proof. simpl. by rewrite decide_True. Qed.

(** What the iterator yields is another connection of the list, found at
    or after the index it started from. *)
Lemma scan_Some websocket rest i connection i' :
  scan websocket rest i = Some (connection, i') →
  connection ≠ websocket ∧ connection ∈ rest ∧ i < i'.
Proof.
  revert i. induction rest as [|c rest IH]; intros i; simpl; [done|].
  destruct (decide (c ≠ websocket)) as [Hne|Heq].
  - intros [= <- <-]. split; [done|]. split; [left | lia].
  - intros H. destruct (IH _ H) as (? & ? & ?).
    split; [done|]. split; [by right | lia].
Qed.

Lemma for_next_Some websocket l i connection i' :
  for_next websocket l i = Some (connection, i') →
  connection ≠ websocket ∧ connection ∈ l ∧ i < i'.
Proof.
  unfold for_next. intros (? & Hin & ?)%scan_Some.
  split; [done|]. split; [|done].
  apply list_elem_of_lookup in Hin as [k Hk].
  rewrite lookup_drop in Hk. by eapply list_elem_of_lookup_2.
Qed.
Lemma scan_peers_Some websocket rest i connection i' :
  scan websocket rest i = Some (connection, i') →
  ∃ k, i' = i + S k ∧ S k ≤ length rest
       ∧ peers websocket (take (S k) rest) = [connection].
Proof.
  revert i. induction rest as [|c rest IH]; intros i; simpl; [done|].
  destruct (decide (c ≠ websocket)) as [Hne|Heq].
  - intros [= <- <-]. exists 0. split; [lia|]. split; [lia|].
    rewrite take_0. unfold peers. by rewrite filter_cons_True.
  - intros H. destruct (IH _ H) as (k & -> & Hk & Hp).
    exists (S k). split; [lia|]. split; [lia|].
    unfold peers in *. rewrite filter_cons_False by done. exact Hp.
Qed.

Lemma scan_peers_None websocket rest i :
  scan websocket rest i = None → peers websocket rest = [].
Proof.
  revert i. induction rest as [|c rest IH]; intros i; simpl; [done|].
  destruct (decide (c ≠ websocket)) as [Hne|Heq]; [done|].
  intros H. unfold peers in *. rewrite filter_cons_False by done. by eapply IH.
Qed.

(** The iterator hands out the other connections of the list in order, and
    each position once. *)
Lemma for_next_peers_Some websocket l i connection i' :
  for_next websocket l i = Some (connection, i') →
  i' ≤ length l
  ∧ peers websocket (take i' l) = peers websocket (take i l) ++ [connection].
Proof.
  unfold for_next. intros (k & -> & Hk & Hp)%scan_peers_Some.
  rewrite length_drop in Hk. split; [lia|].
  rewrite <- Hp. unfold peers. rewrite <- filter_app. f_equal.
  rewrite <- (take_drop i l) at 1.
  rewrite take_app_add' by (rewrite length_take; lia). done.
Qed.

Lemma for_next_peers_None websocket l i :
  for_next websocket l i = None →
  peers websocket (take i l) = peers websocket l.
Proof.
  unfold for_next. intros Hp%scan_peers_None.
  rewrite <- (take_drop i l) at 2. unfold peers in *.
  by rewrite filter_app, Hp, app_nil_r.
Qed.

Lemma peers_elem_of websocket l c :
  c ∈ peers websocket l ↔ c ∈ l ∧ c ≠ websocket.
Proof. unfold peers. rewrite list_elem_of_filter. tauto. Qed.

Lemma peers_NoDup websocket l : NoDup l → NoDup (peers websocket l).
Proof. apply NoDup_filter. Qed.
End list_facts.

(** ** The registry operations *)

Section registry_facts.
Implicit Types (connections : registry) (websocket : chan) (room_id : string).

Lemma join_lookup room_id websocket connections :
  join room_id websocket connections !! room_id
  = Some (default [] (connections !! room_id) ++ [websocket]).
Proof.
  unfold join. destruct (connections !! room_id) as [l|] eqn:E; simpl.
  - by rewrite lookup_alter_eq, E.
  - by rewrite lookup_alter_eq, lookup_insert_eq.
Qed.

Lemma join_lookup_ne room_id websocket connections room :
  room ≠ room_id →
  join room_id websocket connections !! room = connections !! room.
Proof.
  intros Hne. unfold join.
  destruct (connections !! room_id) as [l|] eqn:E.
  - by rewrite lookup_alter_ne.
  - rewrite lookup_alter_ne by done. by rewrite lookup_insert_ne.
Qed.

Lemma leave_inr room_id websocket connections connections' :
  leave room_id websocket connections = inr connections' →
  ∃ l l', connections !! room_id = Some l ∧ list_remove websocket l = Some l'
          ∧ connections' = <[room_id := l']> connections.
Proof.
  unfold leave. destruct (connections !! room_id) as [l|]; [|done].
  destruct (list_remove websocket l) as [l'|] eqn:E; [|done].
  intros [= <-]. by exists l, l'.
Qed.

Lemma leave_member room_id websocket connections l :
  connections !! room_id = Some l → websocket ∈ l →
  ∃ l', list_remove websocket l = Some l'
        ∧ leave room_id websocket connections = inr (<[room_id := l']> connections).
Proof.
  intros Hl Hin. destruct (list_remove_is_Some _ _ Hin) as [l' Hl'].
  exists l'. split; [done|]. unfold leave. by rewrite Hl, Hl'.
Qed.
End registry_facts.

(** ** The registry and the tasks agree in every reachable state *)

Section invariant.
Implicit Types (s : system) (websocket : chan) (room_id : string).

Lemma startup_consistent : consistent startup.
Proof. split; simpl; intros *; by rewrite lookup_empty. Qed.

(** A handler that is not inside its [try] statement is in no list. *)
Lemma not_joined_not_member s websocket room_id p room l :
  consistent s → tasks s !! websocket = Some (room_id, p) → ¬ joined p →
  connections s !! room = Some l → websocket ∉ l.
Proof.
  intros Hc Ht Hp Hl Hin.
  destruct (member_task _ Hc _ _ _ Hl Hin) as (p' & Ht' & Hj).
  rewrite Ht in Ht'. by injection Ht' as -> ->.
Qed.

Lemma fresh_not_member s websocket room l :
  consistent s → tasks s !! websocket = None →
  connections s !! room = Some l → websocket ∉ l.
Proof.
  intros Hc Ht Hl Hin.
  destruct (member_task _ Hc _ _ _ Hl Hin) as (p' & Ht' & Hj). congruence.
Qed.

(** Moving a handler between two points inside (or two points outside) the
    [try] statement keeps the agreement. *)
Lemma consistent_retask s websocket room_id p p' cs :
  consistent s → tasks s !! websocket = Some (room_id, p) →
  (joined p ↔ joined p') →
  consistent (System (connections s) (<[websocket := (room_id, p')]> (tasks s)) cs).
Proof.
  intros Hc Ht Hpp. split; simpl.
  - apply Hc.
  - intros room l w Hl Hin.
    destruct (member_task _ Hc _ _ _ Hl Hin) as (q & Hq & Hj).
    destruct (decide (w = websocket)) as [->|Hne].
    + rewrite Ht in Hq. injection Hq as -> ->.
      exists p'. rewrite lookup_insert_eq. split; [done | by apply Hpp].
    + exists q. by rewrite lookup_insert_ne.
  - intros w room q Hq Hj.
    destruct (decide (w = websocket)) as [->|Hne].
    + rewrite lookup_insert_eq in Hq. injection Hq as <- <-.
      apply (task_member _ Hc _ _ p); [done | by apply Hpp].
    + rewrite lookup_insert_ne in Hq by done. by eapply task_member.
Qed.

Lemma consistent_connect s websocket room_id :
  consistent s → tasks s !! websocket = None →
  consistent (suspend websocket room_id Accepting s).
Proof.
  intros Hc Ht. split; simpl.
  - apply Hc.
  - intros room l w Hl Hin.
    destruct (member_task _ Hc _ _ _ Hl Hin) as (q & Hq & Hj).
    exists q. rewrite lookup_insert_ne; [done | congruence].
  - intros w room q Hq Hj.
    destruct (decide (w = websocket)) as [->|Hne].
    + rewrite lookup_insert_eq in Hq. by injection Hq as <- <-.
    + rewrite lookup_insert_ne in Hq by done. by eapply task_member.
Qed.

Lemma consistent_accepted s websocket room_id :
  consistent s → tasks s !! websocket = Some (room_id, Accepting) →
  consistent (System (join room_id websocket (connections s))
                (<[websocket := (room_id, Receiving)]> (tasks s)) (calls s)).
Proof.
  intros Hc Ht.
  assert (∀ room l, connections s !! room = Some l → websocket ∉ l) as Hout.
  { intros room l Hl.
    apply (not_joined_not_member s websocket room_id Accepting room l);
      [done | done | by intros [] | done]. }
  split; simpl.
  - intros room l Hl. destruct (decide (room = room_id)) as [->|Hne].
    + rewrite join_lookup in Hl. injection Hl as <-.
      destruct (connections s !! room_id) as [l0|] eqn:E; simpl.
      * apply NoDup_app. split; [by eapply rooms_NoDup|].
        split; [|apply NoDup_singleton].
        intros x Hx ->%list_elem_of_singleton. by eapply Hout.
      * apply NoDup_singleton.
    + rewrite join_lookup_ne in Hl by done. by eapply rooms_NoDup.
  - intros room l w Hl Hin. destruct (decide (w = websocket)) as [->|Hw].
    + rewrite lookup_insert_eq. destruct (decide (room = room_id)) as [->|Hne].
      * by exists Receiving.
      * rewrite join_lookup_ne in Hl by done. by destruct (Hout _ _ Hl).
    + rewrite lookup_insert_ne by done.
      destruct (decide (room = room_id)) as [->|Hne].
      * rewrite join_lookup in Hl. injection Hl as <-.
        apply elem_of_app in Hin as [Hin|Hin%list_elem_of_singleton]; [|done].
        destruct (connections s !! room_id) as [l0|] eqn:E; simpl in Hin.
        -- by eapply member_task.
        -- by apply not_elem_of_nil in Hin.
      * rewrite join_lookup_ne in Hl by done. by eapply member_task.
  - intros w room q Hq Hj. destruct (decide (w = websocket)) as [->|Hw].
    + rewrite lookup_insert_eq in Hq. injection Hq as <- <-.
      rewrite join_lookup. eexists. split; [done|].
      apply elem_of_app. right. by apply list_elem_of_singleton.
    + rewrite lookup_insert_ne in Hq by done.
      destruct (task_member _ Hc _ _ _ Hq Hj) as (l & Hl & Hin).
      destruct (decide (room = room_id)) as [->|Hne].
      * rewrite join_lookup, Hl. simpl. eexists. split; [done|].
        apply elem_of_app. by left.
      * rewrite join_lookup_ne by done. by exists l.
Qed.
(** Inside the [try] statement the clean-up finds the object in the room's
    list: the [finally] clause removes it and raises nothing. *)
Lemma unwind_joined s websocket room_id p e :
  consistent s → tasks s !! websocket = Some (room_id, p) → joined p →
  ∃ l l', connections s !! room_id = Some l ∧ websocket ∈ l
    ∧ list_remove websocket l = Some l'
    ∧ unwind websocket room_id e s
      = System (<[room_id := l']> (connections s))
          (<[websocket := (room_id, Finished (if caught e then None else Some e))]>
             (tasks s))
          (calls s).
Proof.
  intros Hc Ht Hj. destruct (task_member _ Hc _ _ _ Ht Hj) as (l & Hl & Hin).
  destruct (leave_member _ _ _ _ Hl Hin) as (l' & Hrm & Hleave).
  exists l, l'. repeat (split; [done|]).
  unfold unwind, finally_clause. by rewrite Hleave.
Qed.

Lemma consistent_unwind s websocket room_id p e :
  consistent s → tasks s !! websocket = Some (room_id, p) → joined p →
  consistent (unwind websocket room_id e s).
Proof.
  intros Hc Ht Hj.
  destruct (unwind_joined s websocket room_id p e Hc Ht Hj)
    as (l & l' & Hl & Hin & Hrm & ->).
  destruct (list_remove_NoDup _ _ _ Hrm (rooms_NoDup _ Hc _ _ Hl)) as [Hnd Hout].
  split; simpl.
  - intros room k Hk. destruct (decide (room = room_id)) as [->|Hne].
    + rewrite lookup_insert_eq in Hk. by injection Hk as <-.
    + rewrite lookup_insert_ne in Hk by done. by eapply rooms_NoDup.
  - intros room k w Hk Hw.
    assert (w ≠ websocket ∧ ∃ k0, connections s !! room = Some k0 ∧ w ∈ k0)
      as (Hne & k0 & Hk0 & Hw0).
    { destruct (decide (room = room_id)) as [->|Hroom].
      - rewrite lookup_insert_eq in Hk. injection Hk as <-.
        split; [by intros ->|]. exists l. split; [done|].
        by eapply list_remove_elem_of.
      - rewrite lookup_insert_ne in Hk by done.
        split; [|by exists k]. intros ->.
        destruct (member_task _ Hc _ _ _ Hk Hw) as (q & Hq & _). congruence. }
    rewrite lookup_insert_ne by done. by eapply member_task.
  - intros w room q Hq Hjq. destruct (decide (w = websocket)) as [->|Hne].
    + rewrite lookup_insert_eq in Hq. by injection Hq as <- <-.
    + rewrite lookup_insert_ne in Hq by done.
      destruct (task_member _ Hc _ _ _ Hq Hjq) as (k & Hk & Hw).
      destruct (decide (room = room_id)) as [->|Hroom].
      * rewrite lookup_insert_eq. exists l'. split; [done|].
        rewrite Hl in Hk. injection Hk as <-. by eapply list_remove_keeps.
      * rewrite lookup_insert_ne by done. by exists k.
Qed.

(** Inside the [try] statement the room's list exists, and the relay either
    calls [send_text] on another connection of it or goes back to
    [receive_text]. *)
Lemma relay_joined s websocket room_id p data i :
  consistent s → tasks s !! websocket = Some (room_id, p) → joined p →
  ∃ l, connections s !! room_id = Some l ∧
    ((∃ connection i', for_next websocket l i = Some (connection, i')
        ∧ relay websocket room_id data i s
          = System (connections s)
              (<[websocket := (room_id, Sending data i')]> (tasks s))
              (calls s ++ [SendCall websocket connection data]))
     ∨ (for_next websocket l i = None
        ∧ relay websocket room_id data i s = suspend websocket room_id Receiving s)).
Proof.
  intros Hc Ht Hj. destruct (task_member _ Hc _ _ _ Ht Hj) as (l & Hl & Hin).
  exists l. split; [done|]. unfold relay. rewrite Hl.
  destruct (for_next websocket l i) as [[connection i']|]; [left | right].
  - by exists connection, i'.
  - done.
Qed.

Lemma consistent_relay s websocket room_id p data i :
  consistent s → tasks s !! websocket = Some (room_id, p) → joined p →
  consistent (relay websocket room_id data i s).
Proof.
  intros Hc Ht Hj.
  destruct (relay_joined s websocket room_id p data i Hc Ht Hj)
    as (l & Hl & [(c & i' & _ & ->)|[_ ->]]);
    (eapply consistent_retask; [done | done |]); by destruct p.
Qed.

Lemma step_consistent ev s s' :
  consistent s → step ev s = Some s' → consistent s'.
Proof.
  intros Hc. destruct ev as [w room|w|w data|w|w e]; simpl;
    destruct (tasks s !! w) as [[room_id p]|] eqn:Ht; try done.
  - intros [= <-]. by apply consistent_connect.
  - destruct p; try done. intros [= <-]. by apply consistent_accepted.
  - destruct p; try done. intros [= <-]. by eapply consistent_relay.
  - destruct p; try done. intros [= <-]. by eapply consistent_relay.
  - destruct p; try done; intros [= <-].
    + eapply consistent_retask; [done | done | done].
    + by eapply consistent_unwind.
    + by eapply consistent_unwind.
Qed.

Lemma run_consistent evs s s' :
  consistent s → run evs s = Some s' → consistent s'.
Proof.
  revert s. induction evs as [|ev evs IH]; intros s Hc; simpl.
  - by intros [= <-].
  - destruct (step ev s) as [s1|] eqn:E; [|done].
    intros Hrun. eapply IH; [|done]. by eapply step_consistent.
Qed.

Lemma reachable_consistent s : reachable s → consistent s.
Proof. intros [evs Hrun]. eapply run_consistent; [apply startup_consistent | done]. Qed.

Lemma reachable_step ev s s' : reachable s → step ev s = Some s' → reachable s'.
Proof.
  intros [evs Hrun] Hstep. exists (evs ++ [ev]).
  revert Hrun. generalize startup. induction evs as [|e evs IH]; intros s0; simpl.
  - intros [= ->]. by rewrite Hstep.
  - destruct (step e s0); [apply IH | done].
Qed.
End invariant.

(** ** Steps: whose task moves, which calls are made *)

Section steps.
Implicit Types (s : system) (websocket : chan) (room_id : string).

Lemma new_calls_same s s' : calls s' = calls s → new_calls s s' = [].
Proof. unfold new_calls. intros ->. by rewrite drop_all. Qed.

Lemma new_calls_app s s' cs : calls s' = calls s ++ cs → new_calls s s' = cs.
Proof. unfold new_calls. intros ->. by rewrite drop_app_length. Qed.

Lemma finally_clause_task websocket room_id outcome s w :
  w ≠ websocket →
  tasks (finally_clause websocket room_id outcome s) !! w = tasks s !! w.
Proof.
  intros Hne. unfold finally_clause.
  destruct (leave room_id websocket (connections s)); simpl;
    by rewrite lookup_insert_ne.
Qed.

Lemma finally_clause_calls websocket room_id outcome s :
  calls (finally_clause websocket room_id outcome s) = calls s.
Proof.
  unfold finally_clause. by destruct (leave room_id websocket (connections s)).
Qed.

Lemma relay_task websocket room_id data i s w :
  w ≠ websocket → tasks (relay websocket room_id data i s) !! w = tasks s !! w.
Proof.
  intros Hne. unfold relay, unwind.
  destruct (connections s !! room_id) as [l|].
  - destruct (for_next websocket l i) as [[c i']|]; simpl;
      by rewrite lookup_insert_ne.
  - by apply finally_clause_task.
Qed.

(** A step moves the task of its subject only. *)
Lemma step_other_task ev s s' w :
  step ev s = Some s' → w ≠ subject ev → tasks s' !! w = tasks s !! w.
Proof.
  destruct ev as [ws room|ws|ws data|ws|ws e]; simpl; intros Hstep Hne;
    destruct (tasks s !! ws) as [[room_id p]|] eqn:Ht; try done;
    try (destruct p; try done); injection Hstep as <-; simpl;
    first [ by rewrite lookup_insert_ne
          | by apply relay_task
          | by apply finally_clause_task ].
Qed.

(** Every [send_text] call of a step is made by the relay of a handler
    inside its loop, on a connection its iterator took from the list of the
    handler's own room. *)
Lemma step_new_calls ev s s' c :
  consistent s → step ev s = Some s' → c ∈ new_calls s s' →
  ∃ room_id p l i i',
    tasks s !! sender c = Some (room_id, p) ∧ joined p
    ∧ connections s !! room_id = Some l
    ∧ for_next (sender c) l i = Some (target c, i').
Proof.
  intros Hc Hstep Hin.
  assert (∀ ws room_id p data i,
    tasks s !! ws = Some (room_id, p) → joined p →
    s' = relay ws room_id data i s →
    ∃ room_id p l i i',
      tasks s !! sender c = Some (room_id, p) ∧ joined p
      ∧ connections s !! room_id = Some l
      ∧ for_next (sender c) l i = Some (target c, i')) as Hrelay.
  { intros ws room_id p data i Ht Hj ->.
    destruct (relay_joined s ws room_id p data i Hc Ht Hj)
      as (l & Hl & [(x & i' & Hnext & Heq)|[_ Heq]]); rewrite Heq in Hin.
    - rewrite (new_calls_app _ _ [SendCall ws x data]) in Hin by done.
      apply list_elem_of_singleton in Hin as ->. simpl.
      by exists room_id, p, l, i, i'.
    - rewrite new_calls_same in Hin by done. by apply not_elem_of_nil in Hin. }
  destruct ev as [ws room|ws|ws data|ws|ws e]; simpl in Hstep;
    destruct (tasks s !! ws) as [[room_id p]|] eqn:Ht; try done;
    try (destruct p; try done); injection Hstep as Hs'.
  - rewrite <- Hs', new_calls_same in Hin by done. by apply not_elem_of_nil in Hin.
  - rewrite <- Hs', new_calls_same in Hin by done. by apply not_elem_of_nil in Hin.
  - by eapply (Hrelay ws room_id Receiving data 0).
  - by eapply (Hrelay ws room_id (Sending data i) data i).
  - rewrite <- Hs', new_calls_same in Hin by done. by apply not_elem_of_nil in Hin.
  - rewrite <- Hs', new_calls_same in Hin by apply finally_clause_calls.
    by apply not_elem_of_nil in Hin.
  - rewrite <- Hs', new_calls_same in Hin by apply finally_clause_calls.
    by apply not_elem_of_nil in Hin.
Qed.

(** No step removes a key of the dictionary. *)
Lemma step_keeps_rooms ev s s' room :
  step ev s = Some s' → is_Some (connections s !! room) →
  is_Some (connections s' !! room).
Proof.
  assert (∀ ws room_id o, is_Some (connections s !! room) →
    is_Some (connections (finally_clause ws room_id o s) !! room)) as Hfin.
  { intros ws room_id o Hroom. unfold finally_clause.
    destruct (leave room_id ws (connections s)) as [e|c'] eqn:E; simpl; [done|].
    apply leave_inr in E as (l & l' & Hl & _ & ->).
    destruct (decide (room = room_id)) as [->|Hne].
    - rewrite lookup_insert_eq. by eexists.
    - by rewrite lookup_insert_ne. }
  assert (∀ ws room_id data i, is_Some (connections s !! room) →
    is_Some (connections (relay ws room_id data i s) !! room)) as Hrelay.
  { intros ws room_id data i Hroom. unfold relay, unwind.
    destruct (connections s !! room_id) as [l|]; [|by apply Hfin].
    by destruct (for_next ws l i) as [[c i']|]. }
  destruct ev as [ws r|ws|ws data|ws|ws e]; simpl; intros Hstep Hroom;
    destruct (tasks s !! ws) as [[room_id p]|] eqn:Ht; try done;
    try (destruct p; try done); injection Hstep as <-; simpl;
    try done; try by apply Hrelay. 
  - destruct (decide (room = room_id)) as [->|Hne].
    + rewrite join_lookup. by eexists.
    + by rewrite join_lookup_ne.
  - by apply Hfin.
  - by apply Hfin.
Qed.
End steps.

(** ** Runs: calls only accumulate, a finished handler stays silent *)

Section runs.
Implicit Types (s : system) (websocket : chan) (room_id : string).

Lemma relay_calls_prefix websocket room_id data i s :
  ∃ cs, calls (relay websocket room_id data i s) = calls s ++ cs.
Proof.
  unfold relay, unwind. destruct (connections s !! room_id) as [l|].
  - destruct (for_next websocket l i) as [[c i']|]; simpl.
    + by eexists.
    + exists []. by rewrite app_nil_r.
  - exists []. by rewrite finally_clause_calls, app_nil_r.
Qed.

Lemma step_calls_prefix ev s s' :
  step ev s = Some s' → calls s' = calls s ++ new_calls s s'.
Proof.
  intros Hstep.
  assert (∃ cs, calls s' = calls s ++ cs) as [cs Hcs].
  { destruct ev as [ws r|ws|ws data|ws|ws e]; simpl in Hstep;
      destruct (tasks s !! ws) as [[room_id p]|] eqn:Ht; try done;
      try (destruct p; try done); injection Hstep as <-;
      try apply relay_calls_prefix;
      try (exists []; unfold unwind; rewrite ?finally_clause_calls; simpl;
           by rewrite app_nil_r). }
  by rewrite (new_calls_app _ _ cs).
Qed.

Lemma run_calls_prefix evs s s' :
  run evs s = Some s' → calls s' = calls s ++ new_calls s s'.
Proof.
  revert s. induction evs as [|ev evs IH]; intros s; simpl.
  - intros [= <-]. by rewrite new_calls_same, app_nil_r.
  - destruct (step ev s) as [s1|] eqn:E; [|done]. intros Hrun.
    apply IH in Hrun. apply step_calls_prefix in E.
    rewrite E, <- app_assoc in Hrun.
    by rewrite (new_calls_app _ _ _ Hrun).
Qed.

Lemma new_calls_step_run ev evs s s1 s' :
  step ev s = Some s1 → run evs s1 = Some s' →
  new_calls s s' = new_calls s s1 ++ new_calls s1 s'.
Proof.
  intros Hstep%step_calls_prefix Hrun%run_calls_prefix.
  rewrite Hstep, <- app_assoc in Hrun. by apply new_calls_app.
Qed.

(** Once finished, a handler's task never moves and makes no call. *)
Lemma run_finished_silent evs s s' websocket room_id outcome :
  consistent s → tasks s !! websocket = Some (room_id, Finished outcome) →
  run evs s = Some s' →
  tasks s' !! websocket = Some (room_id, Finished outcome)
  ∧ ∀ call, call ∈ new_calls s s' → sender call ≠ websocket.
Proof.
  revert s. induction evs as [|ev evs IH]; intros s Hc Ht; simpl.
  - intros [= <-]. split; [done|]. rewrite new_calls_same by done.
    intros call Hin. by apply not_elem_of_nil in Hin.
  - destruct (step ev s) as [s1|] eqn:E; [|done]. intros Hrun.
    assert (tasks s1 !! websocket = Some (room_id, Finished outcome)) as Ht1.
    { rewrite <- Ht. apply (step_other_task _ _ _ _ E). intros ->.
      destruct ev; simpl in *; rewrite Ht in E; done. }
    destruct (IH s1 (step_consistent _ _ _ Hc E) Ht1 Hrun) as [Hfin Hsilent].
    split; [done|]. intros call.
    rewrite (new_calls_step_run _ _ _ _ _ E Hrun).
    intros [Hin|Hin]%elem_of_app; [|by apply Hsilent].
    destruct (step_new_calls _ _ _ _ Hc E Hin) as (r & p & _ & _ & _ & Hp & Hj & _).
    intros Heq. rewrite Heq, Ht in Hp. by injection Hp as <- <-.
Qed.
End runs.

(** ** A broadcast among interleaved handlers *)

Section broadcast.
Implicit Types (s : system) (websocket : chan) (room_id : string).

Lemma step_calls_sender ev s s' call :
  step ev s = Some s' → call ∈ new_calls s s' → sender call = subject ev.
Proof.
  assert (∀ ws room_id data i,
    call ∈ new_calls s (relay ws room_id data i s) → sender call = ws) as Hrelay.
  { intros ws room_id data i. unfold relay, unwind.
    destruct (connections s !! room_id) as [l|].
    - destruct (for_next ws l i) as [[c i']|].
      + rewrite (new_calls_app _ _ [SendCall ws c data]) by done.
        by intros ->%list_elem_of_singleton.
      + rewrite new_calls_same by done. by intros ?%not_elem_of_nil.
    - rewrite new_calls_same by apply finally_clause_calls.
      by intros ?%not_elem_of_nil. }
  destruct ev as [ws r|ws|ws data|ws|ws e]; simpl; intros Hstep;
    destruct (tasks s !! ws) as [[room_id p]|] eqn:Ht; try done;
    try (destruct p; try done); injection Hstep as <-;
    try apply Hrelay;
    (rewrite new_calls_same by (unfold unwind; by rewrite ?finally_clause_calls));
    by intros ?%not_elem_of_nil.
Qed.

Lemma calls_of_nil websocket (cs : list send_call) :
  (∀ call, call ∈ cs → sender call ≠ websocket) → calls_of websocket cs = [].
Proof.
  unfold calls_of. induction cs as [|c cs IH]; intros Hall; [done|].
  rewrite filter_cons_False by (apply Hall; left).
  apply IH. intros call Hin. apply Hall. by right.
Qed.

Lemma calls_of_others websocket ev s s' :
  step ev s = Some s' → subject ev ≠ websocket →
  calls_of websocket (new_calls s s') = [].
Proof.
  intros Hstep Hne. apply calls_of_nil. intros call Hin Heq.
  apply Hne. rewrite <- Heq. symmetry. by eapply step_calls_sender.
Qed.

(** A task keeps its room. *)
Lemma step_task_room ev s s' w r p :
  step ev s = Some s' → tasks s !! w = Some (r, p) →
  ∃ p', tasks s' !! w = Some (r, p').
Proof.
  intros Hstep Ht. destruct (decide (w = subject ev)) as [->|Hne].
  - assert (∀ room_id data i, tasks s !! subject ev = Some (room_id, p) →
      ∃ p', tasks (relay (subject ev) room_id data i s) !! subject ev
            = Some (room_id, p')) as Hrelay.
    { intros room_id data i _. unfold relay, unwind, finally_clause.
      destruct (connections s !! room_id) as [l|].
      - destruct (for_next (subject ev) l i) as [[c i']|]; simpl;
          rewrite lookup_insert_eq; by eexists.
      - destruct (leave room_id (subject ev) (connections s)); simpl;
          rewrite lookup_insert_eq; by eexists. }
    destruct ev as [ws r'|ws|ws data|ws|ws e]; simpl in *; rewrite Ht in Hstep;
      try done; destruct p; try done; injection Hstep as <-;
      try (by apply Hrelay);
      unfold unwind, finally_clause;
      try destruct (leave r ws (connections s)); simpl;
      rewrite lookup_insert_eq; by eexists.
  - exists p. by rewrite (step_other_task _ _ _ _ Hstep Hne).
Qed.

Lemma run_task_room evs s s' w r p :
  run evs s = Some s' → tasks s !! w = Some (r, p) →
  ∃ p', tasks s' !! w = Some (r, p').
Proof.
  revert s p. induction evs as [|ev evs IH]; intros s p; simpl.
  - intros [= <-] Ht. by exists p.
  - destruct (step ev s) as [s1|] eqn:E; [|done]. intros Hrun Ht.
    destruct (step_task_room _ _ _ _ _ _ E Ht) as [p1 Ht1]. by eapply IH.
Qed.

(** The list of a room only grows under a step that is no exception in a
    handler of that room. *)
Lemma step_room_grows ev s s' room_id l :
  consistent s → step ev s = Some s' → connections s !! room_id = Some l →
  (∀ e p, ev = Raised (subject ev) e →
          tasks s !! subject ev ≠ Some (room_id, p)) →
  ∃ ext, connections s' !! room_id = Some (l ++ ext).
Proof.
  intros Hc Hstep Hl Hquiet.
  assert (∀ ws r p data i, tasks s !! ws = Some (r, p) → joined p →
    connections (relay ws r data i s) = connections s) as Hrelay.
  { intros ws r p data i Ht Hj.
    by destruct (relay_joined s ws r p data i Hc Ht Hj)
      as (k & _ & [(c & i' & _ & ->)|[_ ->]]). }
  assert (∀ ws r p e, tasks s !! ws = Some (r, p) → joined p →
    r ≠ room_id → connections (unwind ws r e s) !! room_id = Some l) as Hunwind.
  { intros ws r p e Ht Hj Hne.
    destruct (unwind_joined s ws r p e Hc Ht Hj) as (k & k' & _ & _ & _ & ->).
    simpl. by rewrite lookup_insert_ne. }
  destruct ev as [ws r|ws|ws data|ws|ws e]; simpl in *;
    destruct (tasks s !! ws) as [[r0 p]|] eqn:Ht; try done;
    try (destruct p; try done); injection Hstep as <-; simpl.
  - exists []. by rewrite app_nil_r.
  - destruct (decide (room_id = r0)) as [->|Hne].
    + exists [ws]. by rewrite join_lookup, Hl.
    + exists []. by rewrite join_lookup_ne, app_nil_r.
  - exists []. by rewrite (Hrelay ws r0 Receiving), app_nil_r.
  - exists []. by rewrite (Hrelay ws r0 (Sending data i)), app_nil_r.
  - exists []. by rewrite app_nil_r.
  - exists []. rewrite app_nil_r. apply (Hunwind ws r0 Receiving e); [done..|].
    intros ->. by eapply Hquiet.
  - exists []. rewrite app_nil_r. apply (Hunwind ws r0 (Sending data i) e); [done..|].
    intros ->. by eapply Hquiet.
Qed.

Lemma broadcasting_step ev s s' websocket room_id data l0 cs :
  consistent s → broadcasting websocket room_id data l0 cs s →
  step ev s = Some s' →
  (∀ d, ev ≠ Received websocket d) →
  (∀ e p, ev = Raised (subject ev) e →
          tasks s !! subject ev ≠ Some (room_id, p)) →
  broadcasting websocket room_id data l0 (cs ++ new_calls s s') s'.
Proof.
  intros Hc (l & j & Hl & Hpre & Hj & Hcalls & Hpc) Hstep Hrecv Hquiet.
  destruct (decide (subject ev = websocket)) as [Hme|Hother].
  - (* the broadcasting handler itself: only a returning send moves it *)
    destruct Hpc as [Ht|[Ht Hlen]];
      destruct ev as [ws r|ws|ws d|ws|ws e]; simpl in Hme; subst ws;
      simpl in Hstep; rewrite Ht in Hstep; try done;
      try (by destruct (Hrecv d));
      try (by destruct (Hquiet e _ eq_refl Ht)).
    injection Hstep as <-.
    destruct (relay_joined s websocket room_id _ data j Hc Ht I)
      as (l' & Hl' & [(c & i' & Hnext & Heq)|[Hnext Heq]]);
      rewrite Hl in Hl'; injection Hl' as <-; rewrite Heq.
    + apply for_next_peers_Some in Hnext as [Hi' Hpeers].
      exists l, i'. split; [done|]. split; [done|]. split; [done|]. split.
      * rewrite (new_calls_app _ _ [SendCall websocket c data]) by done.
        unfold calls_of in *. rewrite filter_app, Hcalls, Hpeers, map_app.
        f_equal. by rewrite filter_cons_True.
      * left. simpl. by rewrite lookup_insert_eq.
    + apply for_next_peers_None in Hnext.
      exists l, (length l). split; [done|]. split; [done|]. split; [done|]. split.
      * rewrite new_calls_same by done. rewrite app_nil_r, Hcalls.
        by rewrite firstn_all, Hnext.
      * right. simpl. rewrite lookup_insert_eq. split; [done|].
        by apply prefix_length.
  - (* another handler: the list can only grow, the calls are not ours *)
    destruct (step_room_grows _ _ _ _ _ Hc Hstep Hl Hquiet) as [ext Hl'].
    exists (l ++ ext), j. split; [done|].
    split; [by etransitivity; [|apply prefix_app_r]|].
    split; [rewrite length_app; lia|]. split.
    + unfold calls_of in *.
      rewrite filter_app. fold (calls_of websocket (new_calls s s')).
      rewrite (calls_of_others _ _ _ _ Hstep Hother), app_nil_r, Hcalls.
      by rewrite take_app_le.
    + rewrite (step_other_task _ _ _ _ Hstep) by done. done.
Qed.
Lemma broadcasting_run evs s s' websocket room_id data l0 cs :
  consistent s → broadcasting websocket room_id data l0 cs s →
  run evs s = Some s' →
  (∀ d, Received websocket d ∉ evs) →
  (∀ w e p, Raised w e ∈ evs → tasks s' !! w ≠ Some (room_id, p)) →
  broadcasting websocket room_id data l0 (cs ++ new_calls s s') s'.
Proof.
  revert s cs. induction evs as [|ev evs IH]; intros s cs Hc Hb; simpl.
  - intros [= <-] _ _. by rewrite new_calls_same, app_nil_r.
  - destruct (step ev s) as [s1|] eqn:E; [|done]. intros Hrun Hrecv Hquiet.
    rewrite (new_calls_step_run _ _ _ _ _ E Hrun), app_assoc.
    apply IH; [by eapply step_consistent | | done | |].
    + apply (broadcasting_step ev); [done | done | done | |].
      * intros d ->. apply (Hrecv d). left.
      * intros e p Hev Ht.
        assert (run (ev :: evs) s = Some s') as Hrun' by (simpl; by rewrite E).
        destruct (run_task_room _ _ _ _ _ _ Hrun' Ht) as [p' Ht'].
        apply (Hquiet (subject ev) e p'); [|done]. rewrite <- Hev. left.
    + intros d Hin. apply (Hrecv d). by right.
    + intros w e p Hin. apply (Hquiet w e p). by right.
Qed.

(** The text has arrived: the broadcast starts at the head of the list. *)
Lemma broadcasting_start s websocket room_id data l :
  consistent s → tasks s !! websocket = Some (room_id, Receiving) →
  connections s !! room_id = Some l →
  broadcasting websocket room_id data l
    (new_calls s (relay websocket room_id data 0 s))
    (relay websocket room_id data 0 s).
Proof.
  intros Hc Ht Hl.
  destruct (relay_joined s websocket room_id _ data 0 Hc Ht I)
    as (l' & Hl' & [(c & i' & Hnext & Heq)|[Hnext Heq]]);
    rewrite Hl in Hl'; injection Hl' as <-; rewrite Heq.
  - apply for_next_peers_Some in Hnext as [Hi' Hpeers].
    exists l, i'. repeat (split; [done|]). split.
    + rewrite (new_calls_app _ _ [SendCall websocket c data]) by done.
      rewrite Hpeers, take_0. unfold calls_of. by rewrite filter_cons_True.
    + left. simpl. by rewrite lookup_insert_eq.
  - apply for_next_peers_None in Hnext. rewrite take_0 in Hnext.
    exists l, (length l). repeat (split; [done|]). split.
    + rewrite new_calls_same by done. by rewrite firstn_all, <- Hnext.
    + right. simpl. by rewrite lookup_insert_eq.
Qed.

(** Left alone, with every send returning, the relay walks the whole list. *)
Lemma relay_run websocket room_id data l rest :
  ∀ i s, connections s !! room_id = Some l → drop i l = rest →
  run (repeat (Sent websocket) (length (peers websocket rest)))
      (relay websocket room_id data i s)
  = Some (System (connections s)
            (<[websocket := (room_id, Receiving)]> (tasks s))
            (calls s ++ map (λ c, SendCall websocket c data)
                          (peers websocket rest))).
Proof.
  induction rest as [|c rest IH]; intros i s Hl Hdrop.
  - unfold relay, for_next. rewrite Hl, Hdrop. simpl. by rewrite app_nil_r.
  - assert (drop (S i) l = rest) as Hdrop'.
    { replace (S i) with (i + 1) by lia.
      by rewrite <- drop_drop, Hdrop. }
    unfold relay, for_next. rewrite Hl, Hdrop. simpl.
    destruct (decide (c ≠ websocket)) as [Hne|Heq].
    + unfold peers. rewrite filter_cons_True by done. simpl.
      rewrite lookup_insert_eq. fold (peers websocket rest).
      rewrite (IH (S i)) by done. simpl.
      by rewrite insert_insert_eq, <- app_assoc.
    + unfold peers. rewrite filter_cons_False by done.
      fold (peers websocket rest). rewrite <- (IH (S i) s Hl Hdrop').
      unfold relay, for_next. by rewrite Hl, Hdrop'.
Qed.

Lemma deliveries_map websocket data c (xs : list chan) :
  deliveries c data (map (λ x, SendCall websocket x data) xs)
  = length (filter (λ x, x = c) xs).
Proof.
  unfold deliveries. induction xs as [|x xs IH]; [done|]. simpl.
  destruct (decide (x = c)) as [->|Hne].
  - rewrite !filter_cons_True by done. simpl. by rewrite IH.
  - rewrite !filter_cons_False; [done | done | by intros [? _]].
Qed.

Lemma count_absent c (xs : list chan) :
  c ∉ xs → length (filter (λ x, x = c) xs) = 0.
Proof.
  induction xs as [|x xs IH]; [done|]. intros Hout.
  rewrite filter_cons_False by (intros ->; apply Hout; left).
  apply IH. intros ?. apply Hout. by right.
Qed.

Lemma count_NoDup c (xs : list chan) :
  NoDup xs → c ∈ xs → length (filter (λ x, x = c) xs) = 1.
Proof.
  induction xs as [|x xs IH]; intros Hnd Hin; [by apply not_elem_of_nil in Hin|].
  apply NoDup_cons in Hnd as [Hx Hnd].
  apply elem_of_cons in Hin as [->|Hin].
  - rewrite filter_cons_True by done. simpl. by rewrite count_absent.
  - rewrite filter_cons_False by (intros ->; done). by apply IH.
Qed.
End broadcast.

(** ** Room identifiers: the text of a version 4 UUID *)

Section uuid.
Local Open Scope Z_scope.

Lemma int_from_bytes_bound_from (bytes : list Byte.byte) (acc : Z) :
  0 ≤ acc →
  0 ≤ fold_left (λ acc b, acc * 256 + Z.of_N (Byte.to_N b)) bytes acc
    < (acc + 1) * 256 ^ Z.of_nat (length bytes).
Proof.
  revert acc. induction bytes as [|b bytes IH]; intros acc Hacc; simpl fold_left.
  - simpl. lia.
  - pose proof (Byte.to_N_bounded b) as Hb.
    assert (0 ≤ acc * 256 + Z.of_N (Byte.to_N b)) as Hacc' by lia.
    specialize (IH _ Hacc').
    rewrite length_cons, Nat2Z.inj_succ, Z.pow_succ_r by lia. nia.
Qed.

Lemma int_from_bytes_bound (bytes : list Byte.byte) :
  0 ≤ int_from_bytes bytes < 256 ^ Z.of_nat (length bytes).
Proof.
  pose proof (int_from_bytes_bound_from bytes 0 ltac:(lia)) as H.
  unfold int_from_bytes. lia.
Qed.

(** A number of at most [n] bits has no bit set from position [n] on. *)
Lemma below_pow2_bits (x n : Z) :
  0 ≤ x → 0 ≤ n → (x < 2 ^ n ↔ ∀ i, n ≤ i → Z.testbit x i = false).
Proof.
  intros Hx Hn. split.
  - intros Hlt i Hi. destruct (decide (x = 0)) as [->|Hx0].
    + apply Z.bits_0.
    + apply Z.bits_above_log2; [done|].
      assert (Z.log2 x < n) by (apply Z.log2_lt_pow2; lia). lia.
  - intros Hbits. destruct (decide (x < 2 ^ n)) as [|Hge]; [done|].
    assert (0 < x) as Hpos by (pose proof (Z.pow_pos_nonneg 2 n); lia).
    assert (n ≤ Z.log2 x) as Hlog by (apply Z.log2_le_pow2; lia).
    pose proof (Z.bit_log2 x Hpos) as Hbit.
    rewrite (Hbits _ Hlog) in Hbit. done.
Qed.

Lemma set_version4_bound (int : Z) :
  0 ≤ int < 2 ^ 128 → 0 ≤ set_version4 int < 2 ^ 128.
Proof.
  intros [Hlo Hhi]. unfold set_version4.
  assert (0 ≤ Z.lor (Z.land (Z.lor (Z.land int (Z.lnot (Z.shiftl 49152 48)))
                               (Z.shiftl 32768 48))
                       (Z.lnot (Z.shiftl 61440 64)))
                (Z.shiftl 4 76)) as Hnonneg.
  { apply Z.lor_nonneg. split; [|done].
    apply Z.land_nonneg. left. apply Z.lor_nonneg. split; [|done].
    apply Z.land_nonneg. by left. }
  split; [done|].
  apply below_pow2_bits; [done | done |]. intros i Hi.
  rewrite Z.lor_spec, Z.land_spec, Z.lor_spec, Z.land_spec.
  rewrite (proj1 (below_pow2_bits int 128 Hlo ltac:(done)) Hhi i Hi).
  rewrite (proj1 (below_pow2_bits (Z.shiftl 32768 48) 128 ltac:(done) ltac:(done))
             ltac:(done) i Hi).
  rewrite (proj1 (below_pow2_bits (Z.shiftl 4 76) 128 ltac:(done) ltac:(done))
             ltac:(done) i Hi).
  done.
Qed.

Lemma hex_digit_is_hex (d : Z) : is_hex_digit (hex_digit d) = true.
Proof.
  unfold hex_digit. destruct d as [|p|p]; [done | | done].
  do 4 (destruct p as [p|p|]; try done).
Qed.

Lemma digit_value_hex_digit (d : Z) : 0 ≤ d < 16 → digit_value (hex_digit d) = d.
Proof.
  intros Hd. destruct d as [|p|p]; [done | | lia].
  do 4 (destruct p as [p|p|]; try done); lia.
Qed.

Lemma hex_digits_are_hex (fuel : nat) (n : Z) :
  Forall (λ c, is_hex_digit c = true) (hex_digits fuel n).
Proof.
  revert n. induction fuel as [|fuel IH]; intros n; simpl; [constructor|].
  destruct (decide (n < 16)).
  - repeat constructor. apply hex_digit_is_hex.
  - apply Forall_app. split; [apply IH|].
    repeat constructor. apply hex_digit_is_hex.
Qed.

Lemma hex_digits_length (fuel k : nat) (n : Z) :
  (1 ≤ k)%nat → 0 ≤ n < 16 ^ Z.of_nat k →
  (length (hex_digits fuel n) ≤ k)%nat.
Proof.
  revert k n. induction fuel as [|fuel IH]; intros k n Hk Hn; simpl; [lia|].
  destruct (decide (n < 16)); [simpl; lia|].
  rewrite length_app. simpl.
  destruct k as [|[|k]]; [lia | simpl in Hn; lia |].
  assert (length (hex_digits fuel (n / 16)) ≤ S k)%nat; [|lia].
  apply IH; [lia|].
  rewrite Nat2Z.inj_succ, Z.pow_succ_r in Hn by lia.
  split; [apply Z.div_pos; lia|].
  apply Z.div_lt_upper_bound; lia.
Qed.

Lemma hex_value_snoc (digits : list ascii) (c : ascii) :
  hex_value (digits ++ [c]) = hex_value digits * 16 + digit_value c.
Proof. unfold hex_value. by rewrite fold_left_app. Qed.

(** With fuel for every digit the numeral reads back as the number. *)
Lemma hex_digits_value (fuel : nat) (n : Z) :
  0 ≤ n < 16 ^ Z.of_nat fuel → hex_value (hex_digits fuel n) = n.
Proof.
  revert n. induction fuel as [|fuel IH]; intros n Hn.
  - simpl in *. unfold hex_value. simpl. lia.
  - simpl hex_digits. destruct (decide (n < 16)) as [Hlt|Hge].
    + unfold hex_value. simpl. apply digit_value_hex_digit. lia.
    + rewrite hex_value_snoc, IH, digit_value_hex_digit.
      * pose proof (Z.div_mod n 16). lia.
      * apply Z.mod_pos_bound. lia.
      * rewrite Nat2Z.inj_succ, Z.pow_succ_r in Hn by lia.
        split; [apply Z.div_pos; lia|].
        apply Z.div_lt_upper_bound; lia.
Qed.

Lemma format_x_value (n : Z) : 0 ≤ n → hex_value (format_x n) = n.
Proof.
  intros Hn. unfold format_x. apply hex_digits_value. split; [done|].
  destruct (decide (n = 0)) as [->|Hne]; [done|].
  rewrite Nat2Z.inj_succ, Z2Nat.id by apply Z.log2_nonneg.
  pose proof (Z.log2_spec n ltac:(lia)) as [_ Hlt].
  eapply Z.lt_le_trans; [exact Hlt|].
  apply Z.pow_le_mono_l. lia.
Qed.

Lemma hex_value_zeros (k : nat) (digits : list ascii) :
  hex_value (repeat "0"%char k ++ digits) = hex_value digits.
Proof.
  unfold hex_value. rewrite fold_left_app. f_equal.
  induction k as [|k IH]; [done|]. simpl. exact IH.
Qed.

(** ['%032x'] of a 128-bit number: exactly 32 hexadecimal digits, which
    read back as the number. *)
Lemma format_032x_spec (n : Z) :
  0 ≤ n < 2 ^ 128 →
  length (format_032x n) = 32%nat
  ∧ Forall (λ c, is_hex_digit c = true) (format_032x n)
  ∧ hex_value (format_032x n) = n.
Proof.
  intros Hn. unfold format_032x.
  assert (length (format_x n) ≤ 32)%nat as Hlen.
  { apply hex_digits_length; [lia|]. change (16 ^ Z.of_nat 32) with (2 ^ 128). lia. }
  split; [|split].
  - rewrite length_app, repeat_length. lia.
  - apply Forall_app. split; [|apply hex_digits_are_hex].
    apply Forall_forall. intros c Hc%list_elem_of_In%repeat_spec. by subst c.
  - rewrite hex_value_zeros. apply format_x_value. lia.
Qed.

Lemma uuid_groups_concat (int : Z) : concat (uuid_groups int) = format_032x int.
Proof.
  unfold uuid_groups, slice. generalize (format_032x int). intros hex.
  simpl. rewrite app_nil_r, drop_0.
  replace (drop 20 hex) with (drop 4 (drop 16 hex)) by (by rewrite drop_drop).
  rewrite take_drop.
  replace (drop 16 hex) with (drop 4 (drop 12 hex)) by (by rewrite drop_drop).
  rewrite take_drop.
  replace (drop 12 hex) with (drop 4 (drop 8 hex)) by (by rewrite drop_drop).
  by rewrite !take_drop.
Qed.

Lemma length_string_of_list_ascii (cs : list ascii) :
  String.length (string_of_list_ascii cs) = length cs.
Proof. induction cs as [|c cs IH]; simpl; congruence. Qed.
End uuid.

(** The text of a 128-bit number as a UUID: 8-4-4-4-12 hexadecimal digits. *)
Lemma uuid_str_shape (int : Z) :
  (0 ≤ int < 2 ^ 128)%Z →
  (∃ g1 g2 g3 g4 g5 : list ascii,
     uuid_str int
     = string_of_list_ascii
         (g1 ++ "-"%char :: g2 ++ "-"%char :: g3 ++ "-"%char
             :: g4 ++ "-"%char :: g5)
     ∧ length <$> [g1; g2; g3; g4; g5] = [8; 4; 4; 4; 12]
     ∧ Forall (λ c, is_hex_digit c = true) (g1 ++ g2 ++ g3 ++ g4 ++ g5)
     ∧ hex_value (g1 ++ g2 ++ g3 ++ g4 ++ g5) = int)
  ∧ String.length (uuid_str int) = 36.
Proof.
  intros Hint.
  destruct (format_032x_spec int Hint) as (Hlen & Hhex & Hval).
  pose proof (uuid_groups_concat int) as Hcat.
  unfold uuid_str, uuid_groups in *.
  revert Hlen Hhex Hval Hcat. generalize (format_032x int). intros hex.
  cbv zeta. intros Hlen Hhex Hval Hcat.
  cbn [concat] in Hcat. rewrite app_nil_r in Hcat.
  assert (length <$> [slice 0 8 hex; slice 8 12 hex; slice 12 16 hex;
                      slice 16 20 hex; drop 20 hex] = [8; 4; 4; 4; 12]) as Hlens.
  { unfold slice. cbn [fmap list_fmap].
    rewrite !length_take, !length_drop, Hlen. reflexivity. }
  split.
  - exists (slice 0 8 hex), (slice 8 12 hex), (slice 12 16 hex),
      (slice 16 20 hex), (drop 20 hex).
    split; [|split; [exact Hlens|]].
    + unfold hyphenate. cbn [map concat]. rewrite app_nil_r.
      reflexivity.
    + rewrite Hcat. by split.
  - rewrite length_string_of_list_ascii. unfold hyphenate.
    cbn [map concat]. injection Hlens as H1 H2 H3 H4 H5.
    repeat first [rewrite length_app | rewrite length_cons | rewrite length_nil].
    rewrite H1, H2, H3, H4, H5. reflexivity.
Qed.

Lemma uuid4_int (w : world) :
  (uuid4 w).1
  = set_version4 (int_from_bytes (map (urandom w) (seq (drawn w) 16))).
Proof. reflexivity. Qed.

Lemma uuid4_world (w : world) :
  (uuid4 w).2 = World (process w) (urandom w) (drawn w + 16).
Proof. reflexivity. Qed.

(** [GET /] answers when [request.url.scheme] returns, and raises, the
    identifier drawn, when it raises. *)
Lemma generate_room_returns (r : request) (w : world) (scheme : string) :
  url_scheme r = Some scheme →
  generate_room r w
  = (inr (TemplateResponse "share.html"
            [ ("request"%string, CtxRequest r);
              ("title"%string, CtxText "Screen Sharing Links");
              ("share_link"%string,
               CtxText ((scheme +:+ "://"
                         +:+ headers_get "host" "localhost:8088" (headers r))
                        +:+ "/share/" +:+ uuid_str (uuid4 w).1));
              ("view_link"%string,
               CtxText ((scheme +:+ "://"
                         +:+ headers_get "host" "localhost:8088" (headers r))
                        +:+ "/view/" +:+ uuid_str (uuid4 w).1)) ]),
     (uuid4 w).2).
Proof.
  intros Hscheme. unfold generate_room, base_url, mbind, handler_bind.
  rewrite Hscheme. destruct (uuid4 w) as [int w']. reflexivity.
Qed.

Lemma generate_room_raises (r : request) (w : world) :
  url_scheme r = None → generate_room r w = (inl ValueError, (uuid4 w).2).
Proof.
  intros Hscheme. unfold generate_room, base_url, mbind, handler_bind.
  rewrite Hscheme. destruct (uuid4 w) as [int w']. reflexivity.
Qed.

Lemma context_get_links (r : request) (title share view : string) :
  context_get "share_link"
    (TemplateResponse "share.html"
       [ ("request"%string, CtxRequest r); ("title"%string, CtxText title);
         ("share_link"%string, CtxText share);
         ("view_link"%string, CtxText view) ]) = Some (CtxText share)
  ∧ context_get "view_link"
      (TemplateResponse "share.html"
         [ ("request"%string, CtxRequest r); ("title"%string, CtxText title);
           ("share_link"%string, CtxText share);
           ("view_link"%string, CtxText view) ]) = Some (CtxText view).
Proof. split; reflexivity. Qed.

(** ** The random bits of an identifier *)

Section random_bits.
Local Open Scope Z_scope.

Lemma int_from_bytes_snoc (bytes : list Byte.byte) (b : Byte.byte) :
  int_from_bytes (bytes ++ [b])
  = int_from_bytes bytes * 256 + Z.of_N (Byte.to_N b).
Proof. unfold int_from_bytes. by rewrite fold_left_app. Qed.

(** Big-endian: bit [i] of the number is bit [i mod 8] of the byte that has
    [i / 8] bytes behind it. *)
Lemma int_from_bytes_testbit (bytes : list Byte.byte) (i : Z) (b : Byte.byte) :
  0 ≤ i < 8 * Z.of_nat (length bytes) →
  bytes !! (length bytes - 1 - Z.to_nat (i / 8))%nat = Some b →
  Z.testbit (int_from_bytes bytes) i = N.testbit (Byte.to_N b) (Z.to_N (i mod 8)).
Proof.
  revert i. induction bytes as [|b0 bytes IH] using rev_ind; intros i Hi Hb.
  - simpl in Hi. lia.
  - rewrite length_app in Hi, Hb. simpl length in Hi, Hb.
    rewrite int_from_bytes_snoc.
    pose proof (Byte.to_N_bounded b0) as Hb0.
    set (X := int_from_bytes bytes). set (B := Z.of_N (Byte.to_N b0)).
    assert (0 ≤ B < 256) as HB by (unfold B; lia).
    destruct (decide (i < 8)) as [Hlow|Hhigh].
    + assert (i / 8 = 0) as Hq by (apply Z.div_small; lia).
      rewrite Hq in Hb. change (Z.to_nat 0) with 0%nat in Hb.
      replace (length bytes + 1 - 1 - 0)%nat with (length bytes) in Hb by lia.
      rewrite (list_lookup_middle bytes [] b0) in Hb by done. injection Hb as <-.
      rewrite Z.mod_small by lia.
      rewrite <- (Z.mod_pow2_bits_low (X * 256 + B) 8 i) by lia.
      change (2 ^ 8) with 256.
      rewrite Z.add_comm, Z.mod_add, Z.mod_small by lia.
      unfold B. by rewrite Z.testbit_of_N' by lia.
    + replace i with (i - 8 + 8) at 1 by lia.
      rewrite <- (Z.div_pow2_bits (X * 256 + B) 8 (i - 8)) by lia.
      change (2 ^ 8) with 256.
      rewrite Z.add_comm, Z.div_add, Z.div_small, Z.add_0_l by lia.
      assert (i / 8 = (i - 8) / 8 + 1) as Hq.
      { replace i with ((i - 8) + 1 * 8) at 1 by lia.
        by rewrite Z.div_add by lia. }
      assert (i mod 8 = (i - 8) mod 8) as Hr.
      { replace i with ((i - 8) + 1 * 8) at 1 by lia.
        by rewrite Z.mod_add by lia. }
      assert (0 ≤ (i - 8) / 8 < Z.of_nat (length bytes)) as Hrange.
      { split; [apply Z.div_pos; lia|].
        apply Z.div_lt_upper_bound; lia. }
      rewrite Hr. apply IH; [lia|].
      rewrite Hq in Hb. rewrite lookup_app_l in Hb by lia.
      rewrite <- Hb. f_equal. lia.
Qed.

Lemma constant_bit_range (c k : Z) :
  0 ≤ c < 2 ^ 16 → Z.testbit c k = true → 0 ≤ k < 16.
Proof.
  intros Hc Hbit. destruct (decide (k < 0)) as [Hneg|Hpos].
  - by rewrite Z.testbit_neg_r in Hbit.
  - destruct (decide (16 ≤ k)) as [Hbig|]; [|lia].
    rewrite (proj1 (below_pow2_bits c 16 ltac:(lia) ltac:(lia))) in Hbit;
      [done | lia | done].
Qed.

Ltac constant_bits H :=
  match type of H with
  | Z.testbit ?c ?k = true =>
      let Hk := fresh in
      let Hcases := fresh in
      assert (0 ≤ k < 16) as Hk
        by (apply (constant_bit_range c k); [by vm_compute | exact H]);
      assert (k = 0 ∨ k = 1 ∨ k = 2 ∨ k = 3 ∨ k = 4 ∨ k = 5 ∨ k = 6 ∨ k = 7
              ∨ k = 8 ∨ k = 9 ∨ k = 10 ∨ k = 11 ∨ k = 12 ∨ k = 13 ∨ k = 14
              ∨ k = 15) as Hcases by lia;
      repeat (destruct Hcases as [Hcases|Hcases]);
      rewrite Hcases in H; try discriminate H; lia
  end.

Lemma testbit_c000 (k : Z) : Z.testbit 49152 k = true → k = 14 ∨ k = 15.
Proof. intros H. constant_bits H. Qed.

Lemma testbit_8000 (k : Z) : Z.testbit 32768 k = true → k = 15.
Proof. intros H. constant_bits H. Qed.

Lemma testbit_f000 (k : Z) : Z.testbit 61440 k = true → 12 ≤ k ≤ 15.
Proof. intros H. constant_bits H. Qed.

Lemma testbit_version (k : Z) : Z.testbit 4 k = true → k = 2.
Proof. intros H. constant_bits H. Qed.

(** [UUID(version=4)] leaves every bit but the six of version and variant
    as it was. *)
Lemma set_version4_testbit (x i : Z) :
  0 ≤ i → i ∉ fixed_bits →
  Z.testbit (set_version4 x) i = Z.testbit x i.
Proof.
  intros Hi Hfree. unfold fixed_bits in Hfree.
  repeat (apply not_elem_of_cons in Hfree as [? Hfree]).
  unfold set_version4. cbv zeta.
  repeat (rewrite Z.lor_spec || rewrite Z.land_spec).
  rewrite !Z.lnot_spec, !Z.shiftl_spec by lia.
  assert (Z.testbit 49152 (i - 48) = false) as ->.
  { destruct (Z.testbit 49152 (i - 48)) eqn:E; [|done].
    apply testbit_c000 in E. lia. }
  assert (Z.testbit 32768 (i - 48) = false) as ->.
  { destruct (Z.testbit 32768 (i - 48)) eqn:E; [|done].
    apply testbit_8000 in E. lia. }
  assert (Z.testbit 61440 (i - 64) = false) as ->.
  { destruct (Z.testbit 61440 (i - 64)) eqn:E; [|done].
    apply testbit_f000 in E. lia. }
  assert (Z.testbit 4 (i - 76) = false) as ->.
  { destruct (Z.testbit 4 (i - 76)) eqn:E; [|done].
    apply testbit_version in E. lia. }
  simpl. by rewrite !andb_true_r, !orb_false_r.
Qed.

(** The six bits it overwrites read binary 10 for the variant (bits 63 and
    62) and 0100 for the version (bits 79 to 76). *)
Lemma set_version4_fixed (x i : Z) :
  i ∈ fixed_bits →
  Z.testbit (set_version4 x) i = (i =? 63) || (i =? 78).
Proof.
  intros Hin. unfold fixed_bits in Hin.
  repeat (apply elem_of_cons in Hin as [->|Hin]);
    try (by apply not_elem_of_nil in Hin);
    unfold set_version4; cbv zeta;
    repeat (rewrite Z.lor_spec || rewrite Z.land_spec);
    match goal with |- context [Z.testbit x ?k] => destruct (Z.testbit x k) end;
    vm_compute; reflexivity.
Qed.
End random_bits.

(** The free bits of the number of [uuid.uuid4()] are the bits of the
    sixteen bytes [os.urandom] returned. *)
Lemma uuid4_random_bits (w : world) (i : Z) :
  (0 ≤ i < 128)%Z → i ∉ fixed_bits →
  Z.testbit (uuid4 w).1 i = random_bit w i.
Proof.
  intros Hi Hfree. rewrite uuid4_int, set_version4_testbit by (done || lia).
  unfold random_bit.
  assert (0 ≤ i / 8 < 16)%Z as Hq.
  { split; [apply Z.div_pos; lia | apply Z.div_lt_upper_bound; lia]. }
  apply int_from_bytes_testbit.
  - rewrite length_map, length_seq. lia.
  - rewrite length_map, length_seq, list_lookup_fmap.
    rewrite lookup_seq_lt by lia. reflexivity.
Qed.

Lemma uuid4_fixed_bits (w : world) (i : Z) :
  i ∈ fixed_bits → Z.testbit (uuid4 w).1 i = ((i =? 63) || (i =? 78))%Z.
Proof. intros Hin. rewrite uuid4_int. by apply set_version4_fixed. Qed.

Lemma uuid4_bound (w : world) : (0 ≤ (uuid4 w).1 < 2 ^ 128)%Z.
Proof.
  rewrite uuid4_int. apply set_version4_bound.
  pose proof (int_from_bytes_bound (map (urandom w) (seq (drawn w) 16))) as H.
  rewrite length_map, length_seq in H. exact H.
Qed.

(** [GET /] for a request whose URL parses: the response, the number behind
    its identifier, and the random bytes taken. *)
Lemma generate_room_identifier (r : request) (w : world) (scheme : string) :
  url_scheme r = Some scheme →
  ∃ (int : Z) (response : template_response),
    generate_room r w
    = (inr response, World (process w) (urandom w) (drawn w + 16))
    ∧ (0 ≤ int < 2 ^ 128)%Z
    ∧ (∀ i, (0 ≤ i < 128)%Z → i ∉ fixed_bits →
            Z.testbit int i = random_bit w i)
    ∧ (∀ i, i ∈ fixed_bits → Z.testbit int i = ((i =? 63) || (i =? 78))%Z)
    ∧ context_get "share_link" response
      = Some (CtxText ((scheme +:+ "://"
                        +:+ headers_get "host" "localhost:8088" (headers r))
                       +:+ "/share/" +:+ uuid_str int))
    ∧ context_get "view_link" response
      = Some (CtxText ((scheme +:+ "://"
                        +:+ headers_get "host" "localhost:8088" (headers r))
                       +:+ "/view/" +:+ uuid_str int)).
Proof.
  intros Hscheme. exists (uuid4 w).1. eexists.
  split; [rewrite (generate_room_returns r w scheme Hscheme), uuid4_world;
          reflexivity|].
  split; [apply uuid4_bound|].
  split; [intros i; apply uuid4_random_bits|].
  split; [intros i; apply uuid4_fixed_bits|].
  apply context_get_links.
Qed.

(** ** One broadcast: nobody is sent to twice *)

Section once.
Implicit Types (s : system) (websocket : chan) (room_id : string).

Lemma list_remove_drop (x y : chan) (l l' : list chan) (j : nat) :
  list_remove x l = Some l' → y ∈ drop j l' → y ∈ drop j l.
Proof.
  revert l' j. induction l as [|z l IH]; intros l' j; simpl; [done|].
  destruct (decide (z = x)) as [->|Hne].
  - intros [= <-] Hin. destruct j as [|j]; simpl.
    + by right.
    + apply list_elem_of_lookup in Hin as [n Hn]. rewrite lookup_drop in Hn.
      apply list_elem_of_lookup. exists (S n). rewrite lookup_drop.
      by replace (j + S n) with (S j + n) by lia.
  - destruct (list_remove x l) as [r|] eqn:E; [|done]. intros [= <-].
    destruct j as [|j]; simpl.
    + intros [->|Hin]%elem_of_cons; [left | right].
      by eapply list_remove_elem_of.
    + by apply IH.
Qed.

Lemma scan_position websocket (rest : list chan) i connection i' :
  scan websocket rest i = Some (connection, i') →
  ∃ k, i' = i + S k ∧ rest !! k = Some connection.
Proof.
  revert i. induction rest as [|c rest IH]; intros i; simpl; [done|].
  destruct (decide (c ≠ websocket)) as [Hne|Heq].
  - intros [= <- <-]. exists 0. split; [lia | done].
  - intros H. destruct (IH _ H) as (k & -> & Hk). exists (S k). split; [lia | done].
Qed.

(** What the iterator yields lies ahead of where it stood and, in a list
    without duplicates, behind where it stands now. *)
Lemma for_next_ahead websocket (l : list chan) i connection i' :
  for_next websocket l i = Some (connection, i') → NoDup l →
  connection ∈ drop i l ∧ (connection ∉ drop i' l)
  ∧ ∀ x, x ∈ drop i' l → x ∈ drop i l.
Proof.
  unfold for_next. intros (k & -> & Hk)%scan_position Hnd.
  rewrite lookup_drop in Hk. split; [|split].
  - apply list_elem_of_lookup. exists k. by rewrite lookup_drop.
  - intros [n Hn]%list_elem_of_lookup. rewrite lookup_drop in Hn.
    pose proof (NoDup_lookup _ _ _ _ Hnd Hk Hn). lia.
  - intros x [n Hn]%list_elem_of_lookup. rewrite lookup_drop in Hn.
    apply list_elem_of_lookup. exists (S k + n). rewrite lookup_drop.
    by replace (i + (S k + n)) with (i + S k + n) by lia.
Qed.

(** A handler never goes back to waiting for [accept]. *)
Lemma step_not_accepting ev s s' w r p :
  step ev s = Some s' → tasks s !! w = Some (r, p) → p ≠ Accepting →
  ∃ p', tasks s' !! w = Some (r, p') ∧ p' ≠ Accepting.
Proof.
  intros Hstep Ht Hp. destruct (decide (w = subject ev)) as [->|Hne].
  - assert (∀ data i, ∃ p',
      tasks (relay (subject ev) r data i s) !! subject ev = Some (r, p')
      ∧ p' ≠ Accepting) as Hrelay.
    { intros data i. unfold relay, unwind, finally_clause.
      destruct (connections s !! r) as [l|].
      - destruct (for_next (subject ev) l i) as [[c i']|]; simpl;
          rewrite lookup_insert_eq; by eexists.
      - destruct (leave r (subject ev) (connections s)); simpl;
          rewrite lookup_insert_eq; by eexists. }
    destruct ev as [ws r'|ws|ws data|ws|ws e]; simpl in *; rewrite Ht in Hstep;
      try done; destruct p; try done; injection Hstep as <-;
      try (by apply Hrelay);
      unfold unwind, finally_clause;
      destruct (leave r ws (connections s)); simpl;
      rewrite lookup_insert_eq; by eexists.
  - exists p. by rewrite (step_other_task _ _ _ _ Hstep Hne).
Qed.

(** Under a step a room's list loses at most one connection, and gains at
    most one, at the end, that was waiting for [accept]: what lies from an
    index on lay from that index on before, or is the newcomer. *)
Lemma step_list_ahead ev s s' r l :
  consistent s → step ev s = Some s' → connections s !! r = Some l →
  ∃ l', connections s' !! r = Some l'
    ∧ ∀ j x, x ∈ drop j l' →
        x ∈ drop j l ∨ (∃ r0, tasks s !! x = Some (r0, Accepting)).
Proof.
  intros Hc Hstep Hl.
  assert (connections s' = connections s →
    ∃ l', connections s' !! r = Some l'
      ∧ ∀ j x, x ∈ drop j l' →
          x ∈ drop j l ∨ (∃ r0, tasks s !! x = Some (r0, Accepting))) as Hsame.
  { intros ->. exists l. split; [done|]. intros j x Hin. by left. }
  assert (∀ ws r0 p data i, tasks s !! ws = Some (r0, p) → joined p →
    connections (relay ws r0 data i s) = connections s) as Hrelay.
  { intros ws r0 p data i Ht Hj.
    by destruct (relay_joined s ws r0 p data i Hc Ht Hj)
      as (k & _ & [(c & i' & _ & ->)|[_ ->]]). }
  assert (∀ ws r0 p e, tasks s !! ws = Some (r0, p) → joined p →
    s' = unwind ws r0 e s →
    ∃ l', connections s' !! r = Some l'
      ∧ ∀ j x, x ∈ drop j l' →
          x ∈ drop j l ∨ (∃ r0, tasks s !! x = Some (r0, Accepting))) as Hunwind.
  { intros ws r0 p e Ht Hj ->.
    destruct (unwind_joined s ws r0 p e Hc Ht Hj) as (k & k' & Hk & _ & Hrm & ->).
    simpl. destruct (decide (r = r0)) as [->|Hne].
    - rewrite lookup_insert_eq. exists k'. split; [done|]. intros j x Hin. left.
      rewrite Hl in Hk. injection Hk as <-. by eapply list_remove_drop.
    - rewrite lookup_insert_ne by done. exists l. split; [done|].
      intros j x Hin. by left. }
  destruct ev as [ws r1|ws|ws data|ws|ws e]; simpl in Hstep;
    destruct (tasks s !! ws) as [[r0 p]|] eqn:Ht; try done;
    try (destruct p; try done); injection Hstep as Hs'.
  - apply Hsame. by subst s'.
  - subst s'. simpl. destruct (decide (r = r0)) as [->|Hne].
    + rewrite join_lookup, Hl. simpl. exists (l ++ [ws]). split; [done|].
      intros j x Hin. rewrite drop_app in Hin.
      apply elem_of_app in Hin as [Hin|Hin]; [by left|]. right.
      assert (x ∈ [ws]) as ->%list_elem_of_singleton; [|by exists r0].
      apply list_elem_of_lookup in Hin as [n Hn]. rewrite lookup_drop in Hn.
      by eapply list_elem_of_lookup_2.
    + rewrite join_lookup_ne by done. exists l. split; [done|].
      intros j x Hin. by left.
  - apply Hsame. subst s'. by apply (Hrelay ws r0 Receiving).
  - apply Hsame. subst s'. by apply (Hrelay ws r0 (Sending data i)).
  - apply Hsame. by subst s'.
  - by apply (Hunwind ws r0 Receiving e).
  - by apply (Hunwind ws r0 (Sending data i) e).
Qed.

Lemma sent_once_step ev s s' websocket cs :
  consistent s → sent_once websocket cs s → step ev s = Some s' →
  (∀ d, ev = Received websocket d → calls_of websocket cs = []) →
  sent_once websocket (cs ++ new_calls s s') s'.
Proof.
  intros Hc (Hnd & Hacc & (rw & pw & Htw & Hpw) & Hahead) Hstep Hfirst.
  assert (∀ c, c ∈ target <$> calls_of websocket cs →
    ∃ r p, tasks s' !! c = Some (r, p) ∧ p ≠ Accepting) as Hacc'.
  { intros c (r & p & Ht & Hp)%Hacc.
    destruct (step_not_accepting _ _ _ _ _ _ Hstep Ht Hp) as (p' & ? & ?).
    by exists r, p'. }
  destruct (step_not_accepting _ _ _ _ _ _ Hstep Htw Hpw) as (pw' & Htw' & Hpw').
  destruct (decide (subject ev = websocket)) as [Hme|Hother].
  - (* the broadcasting handler moves *)
    assert (∀ data i,
      (∀ l, connections s !! rw = Some l →
            ∀ c, c ∈ drop i l → c ∉ target <$> calls_of websocket cs) →
      joined pw → s' = relay websocket rw data i s →
      sent_once websocket (cs ++ new_calls s s') s') as Hrelay.
    { intros data i Hfree Hj Hs'.
      destruct (relay_joined s websocket rw pw data i Hc Htw Hj)
        as (l & Hl & [(c & i' & Hnext & Heq)|[Hnext Heq]]);
        rewrite <- Hs' in Heq.
      - destruct (for_next_ahead _ _ _ _ _ Hnext (rooms_NoDup _ Hc _ _ Hl))
          as (Hc_in & Hc_out & Hsub).
        apply for_next_Some in Hnext as (Hne & Hin & _).
        assert (new_calls s s' = [SendCall websocket c data]) as ->
          by (apply new_calls_app; by rewrite Heq).
        assert (target <$> calls_of websocket (cs ++ [SendCall websocket c data])
                = (target <$> calls_of websocket cs) ++ [c]) as Htargets.
        { unfold calls_of. rewrite filter_app, fmap_app.
          by rewrite (filter_cons_True _ (SendCall websocket c data)). }
        unfold sent_once. cbv zeta. rewrite Htargets. split; [|split; [|split]].
        + apply NoDup_app. split; [done|]. split; [|apply NoDup_singleton].
          intros x Hx ->%list_elem_of_singleton. by eapply Hfree.
        + intros x [Hx|Hx]%elem_of_app; [by apply Hacc'|].
          apply list_elem_of_singleton in Hx as ->.
          destruct (member_task _ Hc _ _ _ Hl Hin) as (q & Hq & Hjq).
          assert (q ≠ Accepting) as Hqa by (by destruct q).
          destruct (step_not_accepting _ _ _ _ _ _ Hstep Hq Hqa) as (q' & ? & ?).
          by exists rw, q'.
        + by exists rw, pw'.
        + intros r d j. rewrite Heq. simpl. rewrite lookup_insert_eq.
          intros [= <- <- <-]. exists l. split; [done|].
          intros x Hx [Hold|Hnew]%elem_of_app.
          * by eapply (Hfree l Hl x); [apply Hsub|].
          * apply list_elem_of_singleton in Hnew as ->. done.
      - assert (new_calls s s' = []) as ->
          by (apply new_calls_same; by rewrite Heq).
        rewrite app_nil_r. unfold sent_once. cbv zeta.
        split; [done|]. split; [done|]. split; [by exists rw, pw'|].
        intros r d j. rewrite Heq. simpl. by rewrite lookup_insert_eq. }
    assert (calls s' = calls s →
      (∀ r d j, tasks s' !! websocket ≠ Some (r, Sending d j)) →
      sent_once websocket (cs ++ new_calls s s') s') as Hstill.
    { intros Hcalls Hpc. rewrite new_calls_same, app_nil_r by done.
      unfold sent_once. cbv zeta.
      split; [done|]. split; [done|]. split; [by exists rw, pw'|].
      intros r d j Ht. by destruct (Hpc r d j). }
    destruct ev as [ws r1|ws|ws data|ws|ws e]; simpl in Hme; subst ws;
      simpl in Hstep; rewrite Htw in Hstep; try done;
      destruct pw; try done; injection Hstep as Hs'.
    + apply (Hrelay data 0); [|done|done].
      intros l _ c _. rewrite (Hfirst data eq_refl). apply not_elem_of_nil.
    + apply (Hrelay data i); [|done|done].
      intros l Hl c Hin. destruct (Hahead _ _ _ Htw) as (l' & Hl' & Hfree).
      rewrite Hl in Hl'. injection Hl' as <-. by apply Hfree.
    + apply Hstill; subst s'; [apply finally_clause_calls|]. intros r d j.
      unfold unwind, finally_clause.
      destruct (leave rw websocket (connections s)); simpl;
        by rewrite lookup_insert_eq.
    + apply Hstill; subst s'; [apply finally_clause_calls|]. intros r d j.
      unfold unwind, finally_clause.
      destruct (leave rw websocket (connections s)); simpl;
        by rewrite lookup_insert_eq.
  - (* another handler moves: its calls are its own *)
    assert (calls_of websocket (cs ++ new_calls s s') = calls_of websocket cs)
      as Hmine.
    { unfold calls_of. rewrite filter_app.
      fold (calls_of websocket (new_calls s s')).
      by rewrite (calls_of_others _ _ _ _ Hstep Hother), app_nil_r. }
    unfold sent_once. cbv zeta. rewrite Hmine.
    split; [done|]. split; [done|]. split; [by exists rw, pw'|].
    intros r d j Ht. rewrite (step_other_task _ _ _ _ Hstep) in Ht by done.
    destruct (Hahead _ _ _ Ht) as (l & Hl & Hfree).
    destruct (step_list_ahead _ _ _ _ _ Hc Hstep Hl) as (l' & Hl' & Hshape).
    exists l'. split; [done|]. intros x Hx Hsent.
    destruct (Hshape _ _ Hx) as [Hold|[r0 Hwait]].
    + by apply (Hfree x).
    + destruct (Hacc _ Hsent) as (r1 & p1 & Hp1 & Hne). congruence.
Qed.

Lemma sent_once_run evs s s' websocket cs :
  consistent s → sent_once websocket cs s → run evs s = Some s' →
  (∀ d, Received websocket d ∉ evs) →
  sent_once websocket (cs ++ new_calls s s') s'.
Proof.
  revert s cs. induction evs as [|ev evs IH]; intros s cs Hc Hinv; simpl.
  - intros [= <-] _. by rewrite new_calls_same, app_nil_r.
  - destruct (step ev s) as [s1|] eqn:E; [|done]. intros Hrun Hrecv.
    rewrite (new_calls_step_run _ _ _ _ _ E Hrun), app_assoc.
    apply IH; [by eapply step_consistent | | done |].
    + apply (sent_once_step ev); [done | done | done |].
      intros d ->. destruct (Hrecv d). left.
    + intros d Hin. apply (Hrecv d). by right.
Qed.
End once.


(** ** One broadcast: everybody who stays is sent to *)

Section serve.
Implicit Types (s : system) (websocket : chan) (room_id : string).

Lemma elem_of_take_app (x : chan) (n : nat) (l0 ext : list chan) :
  x ∈ take n l0 → x ∈ take n (l0 ++ ext).
Proof.
  rewrite !elem_of_take. intros (i & Hi & Hlt). exists i.
  split; [by apply lookup_app_l_Some | done].
Qed.

Lemma elem_of_take_app_inv (x : chan) (n : nat) (l0 ext : list chan) :
  NoDup (l0 ++ ext) → x ∈ l0 → x ∈ take n (l0 ++ ext) → x ∈ take n l0.
Proof.
  intros Hnd [i0 Hi0]%list_elem_of_lookup. rewrite !elem_of_take.
  intros (i & Hi & Hlt). exists i. split; [|done].
  pose proof (lookup_app_l_Some _ ext _ _ Hi0) as Hi0'.
  by rewrite (NoDup_lookup _ _ _ _ Hnd Hi Hi0').
Qed.

Lemma list_remove_app_keep (w : chan) (l0 ext l' : list chan) :
  w ∉ l0 → list_remove w (l0 ++ ext) = Some l' → ∃ ext', l' = l0 ++ ext'.
Proof.
  revert l'. induction l0 as [|y l0 IH]; intros l' Hout; simpl.
  - intros _. by exists l'.
  - rewrite decide_False by (intros ->; apply Hout; left).
    destruct (list_remove w (l0 ++ ext)) as [r|] eqn:E; [|done].
    intros [= <-]. destruct (IH r) as [ext' ->]; [|done|by exists ext'].
    intros ?. apply Hout. by right.
Qed.

(** As long as no connection of [l0] gets an exception, a list that starts
    with [l0] goes on starting with it. *)
Lemma step_keeps_prefix ev s s' r l0 ext :
  consistent s → step ev s = Some s' →
  connections s !! r = Some (l0 ++ ext) →
  (∀ w e, ev = Raised w e → w ∉ l0) →
  ∃ ext', connections s' !! r = Some (l0 ++ ext').
Proof.
  intros Hc Hstep Hl Hkeep.
  assert (connections s' = connections s →
    ∃ ext', connections s' !! r = Some (l0 ++ ext')) as Hsame.
  { intros ->. by exists ext. }
  assert (∀ ws r0 p data i, tasks s !! ws = Some (r0, p) → joined p →
    connections (relay ws r0 data i s) = connections s) as Hrelay.
  { intros ws r0 p data i Ht Hj.
    by destruct (relay_joined s ws r0 p data i Hc Ht Hj)
      as (k & _ & [(c & i' & _ & ->)|[_ ->]]). }
  assert (∀ ws r0 p e, tasks s !! ws = Some (r0, p) → joined p → ws ∉ l0 →
    s' = unwind ws r0 e s →
    ∃ ext', connections s' !! r = Some (l0 ++ ext')) as Hunwind.
  { intros ws r0 p e Ht Hj Hout ->.
    destruct (unwind_joined s ws r0 p e Hc Ht Hj) as (k & k' & Hk & _ & Hrm & ->).
    simpl. destruct (decide (r = r0)) as [->|Hne].
    - rewrite lookup_insert_eq. rewrite Hl in Hk. injection Hk as <-.
      destruct (list_remove_app_keep _ _ _ _ Hout Hrm) as [ext' ->].
      by exists ext'.
    - rewrite lookup_insert_ne by done. by exists ext. }
  destruct ev as [ws r1|ws|ws data|ws|ws e]; simpl in Hstep;
    destruct (tasks s !! ws) as [[r0 p]|] eqn:Ht; try done;
    try (destruct p; try done); injection Hstep as Hs'.
  - apply Hsame. by subst s'.
  - subst s'. simpl. destruct (decide (r = r0)) as [->|Hne].
    + rewrite join_lookup, Hl. simpl. exists (ext ++ [ws]).
      by rewrite app_assoc.
    + rewrite join_lookup_ne by done. by exists ext.
  - apply Hsame. subst s'. by apply (Hrelay ws r0 Receiving).
  - apply Hsame. subst s'. by apply (Hrelay ws r0 (Sending data i)).
  - apply Hsame. by subst s'.
  - apply (Hunwind ws r0 Receiving e); [done | done | by eapply Hkeep | done].
  - apply (Hunwind ws r0 (Sending data i) e);
      [done | done | by eapply Hkeep | done].
Qed.

(** Only a received text starts a broadcast. *)
Lemma step_starts_relaying ev s s' websocket :
  step ev s = Some s' → ¬ relaying websocket s → relaying websocket s' →
  ∃ d, ev = Received websocket d.
Proof.
  intros Hstep Hidle (r & d & j & Hs').
  destruct (decide (websocket = subject ev)) as [->|Hne].
  - destruct ev as [ws r1|ws|ws data|ws|ws e]; simpl in *;
      [| | by exists data | |];
      destruct (tasks s !! ws) as [[r0 p]|] eqn:Ht; try done;
      try (destruct p; try done);
      try (destruct Hidle; by eexists _, _, _);
      injection Hstep as <-; simpl in Hs';
      try (by rewrite lookup_insert_eq in Hs');
      unfold unwind, finally_clause in Hs';
      destruct (leave r0 ws (connections s)); simpl in Hs';
      by rewrite lookup_insert_eq in Hs'.
  - rewrite (step_other_task _ _ _ _ Hstep Hne) in Hs'.
    destruct Hidle. by exists r, d, j.
Qed.

(** A call is made by a handler that has just received a text or is in
    the middle of a broadcast. *)
Lemma step_calls_need_relay ev s s' call :
  step ev s = Some s' → call ∈ new_calls s s' →
  (∃ d, ev = Received (sender call) d) ∨ relaying (sender call) s.
Proof.
  intros Hstep Hin. pose proof (step_calls_sender _ _ _ _ Hstep Hin) as Hsender.
  destruct ev as [ws r1|ws|ws data|ws|ws e]; simpl in Hsender; subst ws;
    [| |left; by exists data| |];
    simpl in Hstep;
    destruct (tasks s !! sender call) as [[r0 p]|] eqn:Ht; try done;
    try (destruct p; try done);
    try (right; by eexists _, _, _);
    injection Hstep as <-;
    (rewrite new_calls_same in Hin
       by (unfold unwind; by rewrite ?finally_clause_calls));
    by apply not_elem_of_nil in Hin.
Qed.

Lemma serving_step ev s s' websocket room_id data l0 cs :
  consistent s → websocket ∈ l0 →
  serving websocket room_id data l0 cs s →
  step ev s = Some s' →
  (∀ d, ev ≠ Received websocket d) →
  (relaying websocket s → ∀ w e, ev = Raised w e → w ∉ l0) →
  serving websocket room_id data l0 (cs ++ new_calls s s') s'.
Proof.
  intros Hc Hme [Hpay Hstate] Hstep Hrecv Hkeep.
  destruct Hstate as [(j & ext & Ht & Hl & Hserved)|[Hidle Hserved]].
  - (* the broadcast is in progress *)
    assert (relaying websocket s) as Hrel by (by exists room_id, data, j).
    specialize (Hkeep Hrel).
    pose proof (rooms_NoDup _ Hc _ _ Hl) as Hnd.
    destruct (decide (subject ev = websocket)) as [Hsub|Hother].
    + destruct ev as [ws r1|ws|ws d|ws|ws e]; simpl in Hsub; subst ws;
        simpl in Hstep; rewrite Ht in Hstep; try done.
      * injection Hstep as <-.
        destruct (relay_joined s websocket room_id _ data j Hc Ht I)
          as (l & Hl2 & [(c & j' & Hnext & Heq)|[Hnext Heq]]);
          rewrite Hl in Hl2; injection Hl2 as <-; rewrite Heq.
        -- pose proof (for_next_peers_Some _ _ _ _ _ Hnext) as [_ Hpeers].
           apply for_next_Some in Hnext as (Hne & _ & _).
           rewrite (new_calls_app _ _ [SendCall websocket c data]) by done.
           assert (calls_of websocket (cs ++ [SendCall websocket c data])
                   = calls_of websocket cs ++ [SendCall websocket c data])
             as Hmine.
           { unfold calls_of. rewrite filter_app.
             by rewrite (filter_cons_True _ (SendCall websocket c data)). }
           unfold serving. rewrite Hmine. split.
           ++ intros call [Hold|Hnew]%elem_of_app; [by apply Hpay|].
              apply list_elem_of_singleton in Hnew as ->. done.
           ++ left. exists j', ext. simpl. rewrite lookup_insert_eq.
              split; [done|]. split; [done|].
              intros x Hx Hxne. rewrite fmap_app. apply elem_of_app.
              assert (x ∈ peers websocket (take j' (l0 ++ ext))) as Hxp.
              { apply peers_elem_of. split; [by apply elem_of_take_app | done]. }
              rewrite Hpeers in Hxp.
              apply elem_of_app in Hxp as [Hxp|Hxp].
              ** left. apply Hserved; [|done].
                 apply peers_elem_of in Hxp as [Hxp _].
                 apply (elem_of_take_app_inv x j l0 ext); [done | | done].
                 by eapply subseteq_take.
              ** right. apply list_elem_of_singleton in Hxp as ->.
                 by apply list_elem_of_singleton.
        -- pose proof (for_next_peers_None _ _ _ Hnext) as Hpeers.
           rewrite new_calls_same, app_nil_r by done.
           split; [done|]. right. split.
           ++ intros (r & d & i & Hi). simpl in Hi.
              by rewrite lookup_insert_eq in Hi.
           ++ intros x Hx Hxne. apply Hserved; [|done].
              apply (elem_of_take_app_inv x j l0 ext); [done | done |].
              assert (x ∈ peers websocket (l0 ++ ext)) as Hxp.
              { apply peers_elem_of. split; [|done]. apply elem_of_app. by left. }
              rewrite <- Hpeers in Hxp. by apply peers_elem_of in Hxp as [? _].
      * destruct (Hkeep websocket e eq_refl Hme).
    + assert (calls_of websocket (cs ++ new_calls s s') = calls_of websocket cs)
        as Hmine.
      { unfold calls_of. rewrite filter_app.
        fold (calls_of websocket (new_calls s s')).
        by rewrite (calls_of_others _ _ _ _ Hstep Hother), app_nil_r. }
      unfold serving. rewrite Hmine. split; [done|]. left.
      destruct (step_keeps_prefix _ _ _ _ _ _ Hc Hstep Hl Hkeep) as [ext' Hl'].
      exists j, ext'. split; [|done].
      by rewrite (step_other_task _ _ _ _ Hstep).
  - (* the broadcast is over *)
    assert (calls_of websocket (cs ++ new_calls s s') = calls_of websocket cs)
      as Hmine.
    { unfold calls_of. rewrite filter_app.
      fold (calls_of websocket (new_calls s s')).
      rewrite (calls_of_nil websocket (new_calls s s')); [by rewrite app_nil_r|].
      intros call Hin Heq.
      destruct (step_calls_need_relay _ _ _ _ Hstep Hin) as [[d ->]|Hrel].
      - rewrite Heq in Hrecv. by destruct (Hrecv d).
      - rewrite Heq in Hrel. done. }
    unfold serving. rewrite Hmine. split; [done|]. right. split; [|done].
    intros Hrel. destruct (step_starts_relaying _ _ _ _ Hstep Hidle Hrel) as [d ->].
    by destruct (Hrecv d).
Qed.

Lemma serving_run evs s s' websocket room_id data l0 cs :
  consistent s → websocket ∈ l0 →
  serving websocket room_id data l0 cs s →
  run evs s = Some s' →
  (∀ d, Received websocket d ∉ evs) →
  (∀ pre w e post s_mid,
     evs = pre ++ Raised w e :: post → run pre s = Some s_mid →
     relaying websocket s_mid → w ∉ l0) →
  serving websocket room_id data l0 (cs ++ new_calls s s') s'.
Proof.
  revert s cs. induction evs as [|ev evs IH]; intros s cs Hc Hme Hserv; simpl.
  - intros [= <-] _ _. by rewrite new_calls_same, app_nil_r.
  - destruct (step ev s) as [s1|] eqn:E; [|done]. intros Hrun Hrecv Hkeep.
    rewrite (new_calls_step_run _ _ _ _ _ E Hrun), app_assoc.
    apply IH; [by eapply step_consistent | done | | done | |].
    + apply (serving_step ev); [done | done | done | done | |].
      * intros d ->. apply (Hrecv d). left.
      * intros Hrel w e ->. by apply (Hkeep [] w e evs s).
    + intros d Hin. apply (Hrecv d). by right.
    + intros pre w e post s_mid -> Hpre.
      apply (Hkeep (ev :: pre) w e post s_mid); [done|].
      simpl. by rewrite E.
Qed.

(** The text has arrived: the relay starts at the head of the list. *)
Lemma serving_start s websocket room_id data l :
  consistent s → tasks s !! websocket = Some (room_id, Receiving) →
  connections s !! room_id = Some l →
  serving websocket room_id data l
    (new_calls s (relay websocket room_id data 0 s))
    (relay websocket room_id data 0 s).
Proof.
  intros Hc Ht Hl.
  destruct (relay_joined s websocket room_id _ data 0 Hc Ht I)
    as (l' & Hl' & [(c & j' & Hnext & Heq)|[Hnext Heq]]);
    rewrite Hl in Hl'; injection Hl' as <-; rewrite Heq.
  - pose proof (for_next_peers_Some _ _ _ _ _ Hnext) as [_ Hpeers].
    rewrite take_0 in Hpeers. simpl in Hpeers.
    apply for_next_Some in Hnext as (Hne & _ & _).
    rewrite (new_calls_app _ _ [SendCall websocket c data]) by done.
    assert (calls_of websocket [SendCall websocket c data]
            = [SendCall websocket c data]) as Hmine
      by (unfold calls_of; by rewrite filter_cons_True).
    unfold serving. rewrite Hmine. split.
    + by intros call ->%list_elem_of_singleton.
    + left. exists j', []. simpl. rewrite lookup_insert_eq, app_nil_r.
      split; [done|]. split; [done|]. intros x Hx Hxne.
      assert (x ∈ peers websocket (take j' l)) as Hxp
        by (by apply peers_elem_of).
      by rewrite Hpeers in Hxp.
  - pose proof (for_next_peers_None _ _ _ Hnext) as Hpeers.
    rewrite take_0 in Hpeers. rewrite new_calls_same by done. split.
    + by intros call ?%not_elem_of_nil.
    + right. split.
      * intros (r & d & i & Hi). simpl in Hi. by rewrite lookup_insert_eq in Hi.
      * intros x Hx Hxne.
        assert (x ∈ peers websocket l) as Hxp by (by apply peers_elem_of).
        rewrite <- Hpeers in Hxp. by apply not_elem_of_nil in Hxp.
Qed.

Lemma deliveries_none (c : chan) (data : string) (cs : list send_call) :
  c ∉ target <$> cs → deliveries c data cs = 0.
Proof.
  unfold deliveries. induction cs as [|call cs IH]; [done|]. intros Hout.
  rewrite filter_cons_False.
  - apply IH. intros ?. apply Hout. simpl. by right.
  - intros [Ht _]. apply Hout. simpl. rewrite Ht. by left.
Qed.

Lemma deliveries_once (c : chan) (data : string) (cs : list send_call) :
  NoDup (target <$> cs) → (∀ call, call ∈ cs → payload call = data) →
  c ∈ target <$> cs → deliveries c data cs = 1.
Proof.
  induction cs as [|call cs IH]; intros Hnd Hpay Hin;
    [by apply not_elem_of_nil in Hin|].
  simpl in Hnd, Hin. apply NoDup_cons in Hnd as [Hfirst Hnd].
  unfold deliveries. destruct (decide (target call = c)) as [Heq|Hne].
  - rewrite filter_cons_True by (split; [done | apply Hpay; left]).
    simpl. f_equal. apply (deliveries_none c data cs). by rewrite <- Heq.
  - rewrite filter_cons_False by (by intros [? _]).
    apply IH; [done | intros ? ?; apply Hpay; by right |].
    apply elem_of_cons in Hin as [Heq|Hin]; [by destruct Hne | done].
Qed.
End serve.
(** * The claims *)

Lemma abc_room_reachable : reachable abc_room.
Proof. exists three_joined. vm_compute. reflexivity. Qed.

(** C5.  When the handler has accepted the connection it joins the room:
    the channel is appended to the room's collection, the collection being
    created empty first when the room identifier was not yet a key of the
    registry; the collection of every other room is left as it was. *)
Theorem join_appends_to_room room_id websocket s :
  let connections' := join room_id websocket (connections s) in
  connections <$> websocket_endpoint websocket room_id Accepting
                    (Accepted websocket) s
  = Some connections'
  ∧ connections' !! room_id
    = Some (match connections s !! room_id with
            | None => [] ++ [websocket]
            | Some l => l ++ [websocket]
            end)
  ∧ ∀ room, room ≠ room_id → connections' !! room = connections s !! room.
Proof.
  intros connections'. split; [done|]. split.
  - unfold connections'. rewrite join_lookup.
    by destruct (connections s !! room_id).
  - intros room Hne. by apply join_lookup_ne.
Qed.

Lemma join_appends_to_room_witness :
  join "x" 5 {[ "y"%string := [4] ]} !! "x"%string = Some [5]
  ∧ join "x" 5 {[ "y"%string := [4] ]} !! "y"%string = Some [4]
  ∧ join "y" 5 {[ "y"%string := [4] ]} !! "y"%string = Some [4; 5].
Proof.
  destruct (join_appends_to_room "x" 5 (System {[ "y"%string := [4] ]} ∅ []))
    as (_ & Hx & Hother).
  destruct (join_appends_to_room "y" 5 (System {[ "y"%string := [4] ]} ∅ []))
    as (_ & Hy & _).
  split; [exact Hx|]. split; [|exact Hy].
  etransitivity; [apply Hother; discriminate | reflexivity].
Defined.

(** C6.  In every state the server can reach (each handler joins once,
    with its own new WebSocket object, and leaves at most once) no room's
    collection holds a channel twice, and no channel is in the collections
    of two rooms. *)
Theorem registry_has_no_duplicates s :
  reachable s →
  (∀ room_id l, connections s !! room_id = Some l → NoDup l)
  ∧ (∀ room1 room2 l1 l2 channel,
       connections s !! room1 = Some l1 → connections s !! room2 = Some l2 →
       channel ∈ l1 → channel ∈ l2 → room1 = room2).
Proof.
  intros Hc%reachable_consistent. split.
  - apply Hc.
  - intros room1 room2 l1 l2 c Hl1 Hl2 Hin1 Hin2.
    destruct (member_task _ Hc _ _ _ Hl1 Hin1) as (p1 & Ht1 & _).
    destruct (member_task _ Hc _ _ _ Hl2 Hin2) as (p2 & Ht2 & _).
    congruence.
Qed.

Lemma registry_has_no_duplicates_witness :
  reachable abc_room ∧ NoDup [P1; P2; P3].
Proof.
  split; [exact abc_room_reachable|].
  apply (proj1 (registry_has_no_duplicates abc_room abc_room_reachable) "abc"%string).
  vm_compute. reflexivity.
Defined.

(** C7.  No join, broadcast or leave removes a room identifier from the
    registry: a key of the mapping stays a key along every run, and when
    the last participant of a room leaves the key is bound to the empty
    collection. *)
Theorem room_entry_is_never_removed evs s s' room_id :
  run evs s = Some s' → is_Some (connections s !! room_id) →
  is_Some (connections s' !! room_id)
  ∧ ∀ websocket p e,
      connections s' !! room_id = Some [websocket] →
      tasks s' !! websocket = Some (room_id, p) → joined p →
      ∃ s'', step (Raised websocket e) s' = Some s''
             ∧ connections s'' !! room_id = Some [].
Proof.
  intros Hrun Hroom. split.
  - revert s Hrun Hroom. induction evs as [|ev evs IH]; intros s; simpl.
    + by intros [= <-].
    + destruct (step ev s) as [s1|] eqn:E; [|done].
      intros Hrun Hroom. apply (IH s1); [done|]. by eapply step_keeps_rooms.
  - intros ws p e Hl Ht Hj. exists (unwind ws room_id e s'). split.
    + simpl. rewrite Ht. by destruct p.
    + unfold unwind, finally_clause, leave.
      rewrite Hl, list_remove_singleton. simpl. by rewrite lookup_insert_eq.
Qed.

Lemma room_entry_is_never_removed_witness :
  is_Some (connections abc_room !! "abc"%string)
  ∧ ∃ s' s'', run [Connect 7 "x"; Accepted 7] abc_room = Some s'
      ∧ is_Some (connections s' !! "abc"%string)
      ∧ step (Raised 7 WebSocketDisconnect) s' = Some s''
      ∧ connections s'' !! "x"%string = Some [].
Proof.
  assert (is_Some (connections abc_room !! "abc"%string)) as Habc.
  { vm_compute. eexists. reflexivity. }
  split; [exact Habc|].
  destruct (run [Connect 7 "x"; Accepted 7] abc_room) as [s'|] eqn:Hrun;
    [|vm_compute in Hrun; discriminate].
  destruct (room_entry_is_never_removed _ _ _ "abc"%string Hrun Habc) as [Hkept _].
  assert (is_Some (connections s' !! "x"%string)
          ∧ connections s' !! "x"%string = Some [7]
          ∧ tasks s' !! 7 = Some ("x"%string, Receiving)) as (Hx & Hl & Ht).
  { vm_compute in Hrun. injection Hrun as <-. vm_compute.
    split; [eexists; reflexivity | split; reflexivity]. }
  destruct (room_entry_is_never_removed [] s' s' "x"%string eq_refl Hx)
    as [_ Hlast].
  destruct (Hlast 7 Receiving WebSocketDisconnect Hl Ht I) as (s'' & Hstep & Hempty).
  exists s', s''. done.
Defined.

(** C2.  From anywhere inside the relay loop (waiting for a text or for a
    send to finish), every exception at the pending await, be it the
    client's close, a transport error or anything else, ends the handler
    with its channel removed from the collection of its room; and the
    handler's task is finished by no other step, so it never ends with the
    channel still registered. *)
Theorem leave_runs_on_every_exit s websocket room_id p :
  reachable s → tasks s !! websocket = Some (room_id, p) → joined p →
  (∀ e, ∃ s' l l',
      step (Raised websocket e) s = Some s'
      ∧ tasks s' !! websocket
        = Some (room_id, Finished (if caught e then None else Some e))
      ∧ connections s !! room_id = Some l ∧ websocket ∈ l
      ∧ connections s' !! room_id = Some l' ∧ websocket ∉ l')
  ∧ (∀ ev s' outcome,
      step ev s = Some s' →
      tasks s' !! websocket = Some (room_id, Finished outcome) →
      (∃ e, ev = Raised websocket e)
      ∧ ∀ room l, connections s' !! room = Some l → websocket ∉ l).
Proof.
  intros Hreach Ht Hj. pose proof (reachable_consistent _ Hreach) as Hc. split.
  - intros e.
    destruct (unwind_joined s websocket room_id p e Hc Ht Hj)
      as (l & l' & Hl & Hin & Hrm & Heq).
    exists (unwind websocket room_id e s), l, l'.
    split; [simpl; rewrite Ht; by destruct p|].
    rewrite Heq. simpl. rewrite !lookup_insert_eq.
    repeat (split; [done|]).
    by destruct (list_remove_NoDup _ _ _ Hrm (rooms_NoDup _ Hc _ _ Hl)).
  - intros ev s' outcome Hstep Hfin. split.
    + destruct (decide (websocket = subject ev)) as [->|Hne].
      * destruct ev as [ws r|ws|ws data|ws|ws e]; simpl in *;
          rewrite Ht in Hstep; destruct p; try done;
          try by eexists.
        -- injection Hstep as <-.
           destruct (relay_joined s ws room_id Receiving data 0 Hc Ht I)
             as (l & _ & [(c & i' & _ & Heq)|[_ Heq]]);
             rewrite Heq in Hfin; simpl in Hfin;
             by rewrite lookup_insert_eq in Hfin.
        -- injection Hstep as <-.
           destruct (relay_joined s ws room_id (Sending data i) data i Hc Ht I)
             as (l & _ & [(c & i' & _ & Heq)|[_ Heq]]);
             rewrite Heq in Hfin; simpl in Hfin;
             by rewrite lookup_insert_eq in Hfin.
      * rewrite (step_other_task _ _ _ _ Hstep Hne), Ht in Hfin.
        injection Hfin as ->. done.
    + intros room l Hl.
      apply (not_joined_not_member s' websocket room_id (Finished outcome) room l);
        [by eapply step_consistent | done | by intros [] | done].
Qed.

Lemma leave_runs_on_every_exit_witness :
  ∃ s', step (Raised P2 WebSocketDisconnect) abc_room = Some s'
        ∧ tasks s' !! P2 = Some ("abc"%string, Finished None)
        ∧ ∃ l', connections s' !! "abc"%string = Some l' ∧ P2 ∉ l'.
Proof.
  assert (tasks abc_room !! P2 = Some ("abc"%string, Receiving)) as Ht
    by (vm_compute; reflexivity).
  destruct (proj1 (leave_runs_on_every_exit abc_room P2 "abc" Receiving
                     abc_room_reachable Ht I) WebSocketDisconnect)
    as (s' & l & l' & Hstep & Hfin & _ & _ & Hl' & Hout).
  exists s'. split; [exact Hstep|]. split; [exact Hfin|]. by exists l'.
Defined.

(** C8.  Every [send_text] call of a step goes to a channel that is, at
    that moment, in the collection of the sending handler's own room, and
    to no channel of the collection of a different room. *)
Theorem broadcast_stays_in_room s ev s' call :
  reachable s → step ev s = Some s' → call ∈ new_calls s s' →
  ∃ room_id p l,
    tasks s !! sender call = Some (room_id, p)
    ∧ connections s !! room_id = Some l ∧ target call ∈ l
    ∧ ∀ room l', room ≠ room_id → connections s !! room = Some l' →
        target call ∉ l'.
Proof.
  intros Hreach Hstep Hin. pose proof (reachable_consistent _ Hreach) as Hc.
  destruct (step_new_calls _ _ _ _ Hc Hstep Hin)
    as (room_id & p & l & i & i' & Ht & _ & Hl & Hnext).
  apply for_next_Some in Hnext as (_ & Htarget & _).
  exists room_id, p, l. repeat (split; [done|]).
  intros room l' Hne Hl' Hin'.
  destruct (member_task _ Hc _ _ _ Hl Htarget) as (q & Hq & _).
  destruct (member_task _ Hc _ _ _ Hl' Hin') as (q' & Hq' & _).
  congruence.
Qed.

Lemma two_rooms_reachable : reachable two_rooms.
Proof. exists two_rooms_joined. vm_compute. reflexivity. Qed.

Lemma broadcast_stays_in_room_witness :
  ∃ s', step (Received P1 "hello") two_rooms = Some s'
        ∧ new_calls two_rooms s' = [SendCall P1 P2 "hello"]
        ∧ connections two_rooms !! "xyz"%string = Some [P3]
        ∧ P2 ∉ [P3].
Proof.
  destruct (step (Received P1 "hello") two_rooms) as [s'|] eqn:Hstep;
    [|vm_compute in Hstep; discriminate].
  assert (new_calls two_rooms s' = [SendCall P1 P2 "hello"]) as Hnew.
  { vm_compute in Hstep. injection Hstep as <-. vm_compute. reflexivity. }
  assert (connections two_rooms !! "xyz"%string = Some [P3]) as Hxyz
    by (vm_compute; reflexivity).
  exists s'. split; [reflexivity|]. split; [exact Hnew|]. split; [exact Hxyz|].
  destruct (broadcast_stays_in_room two_rooms (Received P1 "hello") s'
              (SendCall P1 P2 "hello") two_rooms_reachable Hstep)
    as (room_id & p & l & Ht & _ & _ & Hother).
  { rewrite Hnew. apply list_elem_of_singleton. reflexivity. }
  apply (Hother "xyz"%string [P3]); [|exact Hxyz].
  intros <-. vm_compute in Ht. discriminate.
Defined.




(** C4 (as the code has it).  A [send_text] that raises during a broadcast
    is not contained: the exception leaves the [for] and the [while] loop
    of the sender.  The step makes no call, so none for the connections
    after the failing one; the sender's channel is taken out of its room's
    collection by the clean-up and is in no collection; its handler ends
    (returning for a [WebSocketDisconnect] or [ConnectionError], raising
    otherwise), makes no call ever after and takes no further text.  The
    calls made before stand: the calls of the state before the failure are
    those after it, and they begin the calls of every later state. *)
Theorem failed_send_ends_broadcast s websocket room_id data i e :
  reachable s → tasks s !! websocket = Some (room_id, Sending data i) →
  ∃ s',
    step (Raised websocket e) s = Some s'
    ∧ calls s' = calls s
    ∧ new_calls s s' = []
    ∧ tasks s' !! websocket
      = Some (room_id, Finished (if caught e then None else Some e))
    ∧ (∃ l l', connections s !! room_id = Some l ∧ websocket ∈ l
               ∧ list_remove websocket l = Some l'
               ∧ connections s' = <[room_id := l']> (connections s))
    ∧ (∀ room l, connections s' !! room = Some l → websocket ∉ l)
    ∧ ∀ evs s'', run evs s' = Some s'' →
        tasks s'' !! websocket
        = Some (room_id, Finished (if caught e then None else Some e))
        ∧ calls s `prefix_of` calls s''
        ∧ (∀ call, call ∈ new_calls s' s'' → sender call ≠ websocket)
        ∧ ∀ d, step (Received websocket d) s'' = None.
Proof.
  intros Hreach Ht. pose proof (reachable_consistent _ Hreach) as Hc.
  assert (step (Raised websocket e) s = Some (unwind websocket room_id e s))
    as Hstep by (simpl; by rewrite Ht).
  pose proof (step_consistent _ _ _ Hc Hstep) as Hc'.
  destruct (unwind_joined s websocket room_id _ e Hc Ht I)
    as (l & l' & Hl & Hin & Hrm & Heq).
  assert (tasks (unwind websocket room_id e s) !! websocket
          = Some (room_id, Finished (if caught e then None else Some e))) as Hfin.
  { rewrite Heq. simpl. by rewrite lookup_insert_eq. }
  assert (calls (unwind websocket room_id e s) = calls s) as Hcalls
    by apply finally_clause_calls.
  exists (unwind websocket room_id e s). split; [done|]. split; [done|].
  split; [by apply new_calls_same|]. split; [done|]. split; [|split].
  - exists l, l'. repeat (split; [done|]). by rewrite Heq.
  - intros room k Hk.
    eapply (not_joined_not_member _ websocket); [done | done | by intros [] | done].
  - intros evs s'' Hrun.
    destruct (run_finished_silent _ _ _ _ _ _ Hc' Hfin Hrun) as [Hfin' Hsilent].
    split; [done|]. split; [|split; [done|]].
    + rewrite <- Hcalls, (run_calls_prefix _ _ _ Hrun). by eexists.
    + intros d. simpl. by rewrite Hfin'.
Qed.

Lemma failed_send_ends_broadcast_witness :
  ∃ s s', step (Received P2 "hello") abc_room = Some s
    ∧ step (Raised P2 ConnectionError) s = Some s'
    ∧ calls s' = calls s
    ∧ new_calls s s' = []
    ∧ tasks s' !! P2 = Some ("abc"%string, Finished None).
Proof.
  destruct (step (Received P2 "hello") abc_room) as [s|] eqn:Hstep;
    [|vm_compute in Hstep; discriminate].
  assert (reachable s) as Hreach
    by (eapply reachable_step; [exact abc_room_reachable | exact Hstep]).
  assert (tasks s !! P2 = Some ("abc"%string, Sending "hello" 1)) as Ht.
  { vm_compute in Hstep. injection Hstep as <-. vm_compute. reflexivity. }
  destruct (failed_send_ends_broadcast s P2 "abc" "hello" 1 ConnectionError Hreach Ht)
    as (s' & Hraise & Hsame & Hnone & Hfin & _).
  exists s, s'. done.
Defined.

(** C4, the claim as written fails: P2 broadcasts "hello" to P1, P2, P3 and
    the send to P1 raises.  No send to P3 is attempted although P3 is still
    in the room, and the sender's loop is over: its handler has ended with
    the exception and takes no further text. *)
Lemma failed_send_is_not_contained :
  ∃ s', run [Received P2 "hello"; Raised P2 RuntimeError] abc_room = Some s'
    ∧ calls s' = [SendCall P2 P1 "hello"]
    ∧ connections s' !! "abc"%string = Some [P1; P3]
    ∧ tasks s' !! P2 = Some ("abc"%string, Finished (Some RuntimeError))
    ∧ step (Received P2 "again") s' = None.
Proof. eexists. vm_compute. done. Qed.

(** C1 (as the code has it).  A text received from a participant is sent
    on unmodified, once to every other channel that was in the room's
    collection when the text arrived and never to the sender, in every
    broadcast that is carried through.  When every send returns at once
    the relay reaches the end of the collection.  And however the steps of
    other handlers are interleaved, once the broadcast is over each channel
    that was in the collection when the text arrived has been sent the text
    exactly once, provided that, while the broadcast is in progress, no
    await of a handler whose channel was in the collection when the text
    arrived raises: no send of the broadcast fails and none of those
    channels is removed from the collection under the iterator.  A newcomer
    may join, fail its handshake or leave meanwhile, and anything may
    happen once the broadcast is over. *)
Theorem relay_delivers_to_peers s websocket room_id l data :
  reachable s → tasks s !! websocket = Some (room_id, Receiving) →
  connections s !! room_id = Some l →
  (∃ s',
     run (Received websocket data
            :: repeat (Sent websocket) (length (peers websocket l))) s = Some s'
     ∧ tasks s' !! websocket = Some (room_id, Receiving)
     ∧ connections s' = connections s
     ∧ new_calls s s'
       = map (λ c, SendCall websocket c data) (peers websocket l))
  ∧ ∀ evs s',
      run (Received websocket data :: evs) s = Some s' →
      (∀ d, Received websocket d ∉ evs) →
      (∀ pre w e post s_mid,
         evs = pre ++ Raised w e :: post →
         run (Received websocket data :: pre) s = Some s_mid →
         relaying websocket s_mid → w ∉ l) →
      ¬ relaying websocket s' →
      (∀ call, call ∈ calls_of websocket (new_calls s s') →
               payload call = data ∧ target call ≠ websocket)
      ∧ (∀ c, c ∈ l → c ≠ websocket →
              deliveries c data (calls_of websocket (new_calls s s')) = 1)
      ∧ deliveries websocket data (calls_of websocket (new_calls s s')) = 0.
Proof.
  intros Hreach Ht Hl. pose proof (reachable_consistent _ Hreach) as Hc. split.
  - eexists. simpl. rewrite Ht.
    split; [by apply (relay_run websocket room_id data l l 0 s)|].
    simpl. rewrite lookup_insert_eq. repeat (split; [done|]).
    by apply new_calls_app.
  - intros evs s' Hrun Hrecv Hkeep Hover.
    assert (step (Received websocket data) s
            = Some (relay websocket room_id data 0 s)) as Hstep
      by (simpl; by rewrite Ht).
    assert (run evs (relay websocket room_id data 0 s) = Some s') as Hrun1.
    { simpl in Hrun. by rewrite Ht in Hrun. }
    pose proof (step_consistent _ _ _ Hc Hstep) as Hc1.
    assert (websocket ∈ l) as Hme.
    { destruct (task_member _ Hc _ _ _ Ht I) as (l' & Hl' & Hin). congruence. }
    (* every channel of the list is sent to *)
    assert (serving websocket room_id data l (new_calls s s') s')
      as [Hpay Hstate].
    { rewrite (new_calls_step_run _ _ _ _ _ Hstep Hrun1).
      apply (serving_run evs (relay websocket room_id data 0 s));
        [done | done | by apply serving_start | done | done |].
      intros pre w e post s_mid Heq Hpre.
      apply (Hkeep pre w e post s_mid Heq). simpl. by rewrite Ht. }
    (* and none twice *)
    assert (NoDup (target <$> calls_of websocket (new_calls s s'))) as Hnd.
    { assert (sent_once websocket [] s) as Hinit.
      { unfold sent_once, calls_of. cbv zeta. rewrite filter_nil. simpl.
        split; [apply NoDup_nil_2|]. split; [by intros c ?%not_elem_of_nil|].
        split; [by exists room_id, Receiving|].
        intros r d j Hs. congruence. }
      pose proof (sent_once_step _ _ _ _ [] Hc Hinit Hstep (λ _ _, eq_refl)) as H1.
      pose proof (sent_once_run _ _ _ _ _ Hc1 H1 Hrun1 Hrecv) as [Hnd _].
      simpl in Hnd. by rewrite <- (new_calls_step_run _ _ _ _ _ Hstep Hrun1) in Hnd. }
    destruct Hstate as [(j & ext & Hsend & _)|[_ Hall]];
      [destruct Hover; by exists room_id, data, j|].
    split; [done|]. split.
    + intros c Hin Hne. apply deliveries_once; [done | | by apply Hall].
      intros call Hcall. by apply Hpay.
    + apply deliveries_none. intros (call & Heq & Hcall)%list_elem_of_fmap.
      destruct (Hpay call Hcall) as [_ Hne]. by rewrite <- Heq in Hne.
Qed.

(** The scenario of the specification: P1, P2, P3 in room "abc", P2 sends
    "hello"; P1 and P3 each get it once, P2 does not, here with a fourth
    client that connects during the broadcast and fails its handshake. *)
Lemma relay_delivers_to_peers_witness :
  ∃ s', run hello_with_failed_accept abc_room = Some s'
    ∧ tasks s' !! 4 = Some ("abc"%string, Finished (Some ConnectionError))
    ∧ deliveries P1 "hello" (calls_of P2 (new_calls abc_room s')) = 1
    ∧ deliveries P3 "hello" (calls_of P2 (new_calls abc_room s')) = 1
    ∧ deliveries P2 "hello" (calls_of P2 (new_calls abc_room s')) = 0.
Proof.
  destruct (run hello_with_failed_accept abc_room) as [s'|] eqn:Hrun;
    [|vm_compute in Hrun; discriminate].
  assert (tasks abc_room !! P2 = Some ("abc"%string, Receiving)) as Ht
    by (vm_compute; reflexivity).
  assert (connections abc_room !! "abc"%string = Some [P1; P2; P3]) as Hl
    by (vm_compute; reflexivity).
  assert (tasks s' !! P2 = Some ("abc"%string, Receiving)
          ∧ tasks s' !! 4 = Some ("abc"%string, Finished (Some ConnectionError)))
    as [Hdone Hfailed].
  { vm_compute in Hrun. injection Hrun as <-. vm_compute. split; reflexivity. }
  destruct (relay_delivers_to_peers abc_room P2 "abc" [P1; P2; P3] "hello"
              abc_room_reachable Ht Hl) as [_ Hany].
  destruct (Hany [Connect 4 "abc"; Sent P2; Raised 4 ConnectionError; Sent P2]
              s' Hrun) as (_ & Hpeers & Hself).
  - intros d Hin. repeat (apply elem_of_cons in Hin as [Heq|Hin]; [discriminate|]).
    by apply not_elem_of_nil in Hin.
  - intros pre w e post s_mid Heq _ _.
    assert (w = 4) as ->.
    { destruct pre as [|ev0 pre]; simpl in Heq; [discriminate Heq|].
      destruct pre as [|ev1 pre]; simpl in Heq; [discriminate Heq|].
      destruct pre as [|ev2 pre]; simpl in Heq; [congruence|].
      destruct pre as [|ev3 pre]; simpl in Heq; [discriminate Heq|].
      destruct pre as [|ev4 pre]; simpl in Heq; discriminate Heq. }
    intros Hin. repeat (apply elem_of_cons in Hin as [Heq'|Hin]; [discriminate|]).
    by apply not_elem_of_nil in Hin.
  - intros (r & d & j & Hs). rewrite Hdone in Hs. discriminate.
  - exists s'. split; [reflexivity|]. split; [exact Hfailed|]. split; [|split].
    + apply Hpeers; [left | discriminate].
    + apply Hpeers; [right; right; left | discriminate].
    + exact Hself.
Defined.

(** C1, the claim as written fails, in two ways.  A send that raises ends
    the broadcast: P1 relays "hello", the send to P2 raises, and P3, still
    in the room, is never sent the text.  And the iterator is an index into
    the live list: P3 relays "hello", P1 leaves while the send to P1 is
    pending, the list shifts under the iterator, and P2, in the room all
    along, is skipped although every send returned. *)
Lemma relay_can_miss_a_peer :
  (∃ s', run [Received P1 "hello"; Raised P1 ConnectionError] abc_room = Some s'
     ∧ connections s' !! "abc"%string = Some [P2; P3]
     ∧ deliveries P3 "hello" (new_calls abc_room s') = 0)
  ∧ (∃ s', run [Received P3 "hello"; Raised P1 WebSocketDisconnect; Sent P3]
             abc_room = Some s'
     ∧ tasks s' !! P3 = Some ("abc"%string, Receiving)
     ∧ connections s' !! "abc"%string = Some [P2; P3]
     ∧ new_calls abc_room s' = [SendCall P3 P1 "hello"]
     ∧ deliveries P2 "hello" (new_calls abc_room s') = 0).
Proof. split; eexists; vm_compute; done. Qed.

(** ** The scenarios of the specification, run *)

Example three_joined_registry :
  connections <$> run three_joined startup
  = Some {[ "abc"%string := [P1; P2; P3] ]}.
Proof. vm_compute. reflexivity. Qed.

Example hello_from_P2 :
  calls <$> run (three_joined ++ [Received P2 "hello"; Sent P2; Sent P2]) startup
  = Some [SendCall P2 P1 "hello"; SendCall P2 P3 "hello"].
Proof. vm_compute. reflexivity. Qed.

(** P1 joins room "x" and disconnects, P2 joins and sends "ping": nobody
    is sent anything and nothing is raised. *)
Example ping_to_empty_room :
  ∃ s', run [ Connect P1 "x"; Accepted P1; Raised P1 WebSocketDisconnect;
              Connect P2 "x"; Accepted P2; Received P2 "ping" ] startup = Some s'
    ∧ calls s' = []
    ∧ connections s' !! "x"%string = Some [P2]
    ∧ tasks s' !! P1 = Some ("x"%string, Finished None)
    ∧ tasks s' !! P2 = Some ("x"%string, Receiving).
Proof. eexists. vm_compute. done. Qed.

(** A connection that joins while a broadcast is under way is appended
    behind the iterator's position and is sent the text as well. *)
Example join_during_broadcast :
  calls <$> run [ Received P1 "hello"; Connect 4 "abc"; Accepted 4;
                  Sent P1; Sent P1; Sent P1 ] abc_room
  = Some [SendCall P1 P2 "hello"; SendCall P1 P3 "hello"; SendCall P1 4 "hello"].
Proof. vm_compute. reflexivity. Qed.

(** C9.  For a request whose URL parses, [GET /] answers with a room
    identifier that is the text of a 128-bit number made from the random
    source: every bit of the number is the corresponding bit of the
    sixteen bytes [os.urandom] returns, but for the six bits of version and
    variant of a version 4 UUID, which are set.  The text has 36
    characters, five groups of 8, 4, 4, 4 and 12 hexadecimal digits
    separated by hyphens, the digits being those of the number; and the
    share and the view link of the response are the base URL followed by
    [/share/], respectively [/view/], and exactly that identifier. *)
Theorem room_id_is_canonical_uuid (r : request) (w : world) (scheme : string) :
  url_scheme r = Some scheme →
  ∃ (int : Z) (response : template_response),
    (generate_room r w).1 = inr response
    ∧ (0 ≤ int < 2 ^ 128)%Z
    ∧ (∀ i, (0 ≤ i < 128)%Z → i ∉ fixed_bits →
            Z.testbit int i = random_bit w i)
    ∧ (∀ i, i ∈ fixed_bits → Z.testbit int i = ((i =? 63) || (i =? 78))%Z)
    ∧ (∃ g1 g2 g3 g4 g5 : list ascii,
         uuid_str int
         = string_of_list_ascii
             (g1 ++ "-"%char :: g2 ++ "-"%char :: g3 ++ "-"%char
                 :: g4 ++ "-"%char :: g5)
         ∧ length <$> [g1; g2; g3; g4; g5] = [8; 4; 4; 4; 12]
         ∧ Forall (λ c, is_hex_digit c = true) (g1 ++ g2 ++ g3 ++ g4 ++ g5)
         ∧ hex_value (g1 ++ g2 ++ g3 ++ g4 ++ g5) = int)
    ∧ String.length (uuid_str int) = 36
    ∧ context_get "share_link" response
      = Some (CtxText ((scheme +:+ "://"
                        +:+ headers_get "host" "localhost:8088" (headers r))
                       +:+ "/share/" +:+ uuid_str int))
    ∧ context_get "view_link" response
      = Some (CtxText ((scheme +:+ "://"
                        +:+ headers_get "host" "localhost:8088" (headers r))
                       +:+ "/view/" +:+ uuid_str int)).
Proof.
  intros Hscheme.
  destruct (generate_room_identifier r w scheme Hscheme)
    as (int & response & Hrun & Hint & Hbits & Hfixed & Hshare & Hview).
  destruct (uuid_str_shape int Hint) as [Hshape Hlen].
  exists int, response. rewrite Hrun.
  split; [reflexivity|]. split; [exact Hint|]. split; [exact Hbits|].
  split; [exact Hfixed|]. split; [exact Hshape|]. split; [exact Hlen|].
  split; [exact Hshare | exact Hview].
Qed.

Lemma room_id_is_canonical_uuid_witness :
  url_scheme sample_request = Some "https"%string
  ∧ ∃ (int : Z) (response : template_response),
      (generate_room sample_request (World abc_room counting_bytes 0)).1
      = inr response
      ∧ Z.testbit int 0 = random_bit (World abc_room counting_bytes 0) 0
      ∧ String.length (uuid_str int) = 36
      ∧ context_get "share_link" response
        = Some (CtxText ("https://example.org/share/" +:+ uuid_str int))
      ∧ context_get "view_link" response
        = Some (CtxText ("https://example.org/view/" +:+ uuid_str int)).
Proof.
  split; [reflexivity|].
  destruct (room_id_is_canonical_uuid sample_request
              (World abc_room counting_bytes 0) "https" eq_refl)
    as (int & response & Hrun & _ & Hbits & _ & _ & Hlen & Hshare & Hview).
  exists int, response. split; [exact Hrun|]. split.
  - apply Hbits; [lia|]. unfold fixed_bits. intros Hin.
    repeat (apply elem_of_cons in Hin as [Heq|Hin]; [discriminate|]).
    by apply not_elem_of_nil in Hin.
  - split; [exact Hlen|]. split; [exact Hshare | exact Hview].
Defined.

(** C10.  The three GET handlers neither change nor read the registry:
    the relay state after a request is the one before it, and the response
    is the same whatever the relay state is. *)
Theorem http_handlers_leave_registry (rt : route) (r : request) (w : world) :
  process (http_get rt r w).2 = process w
  ∧ connections (process (http_get rt r w).2) = connections (process w)
  ∧ ∀ relay_state : system,
      (http_get rt r (World relay_state (urandom w) (drawn w))).1
      = (http_get rt r w).1.
Proof.
  destruct rt; unfold http_get.
  - destruct (url_scheme r) as [scheme|] eqn:Hscheme.
    + split; [|split; [|intros relay_state]];
        rewrite ?(generate_room_returns _ _ scheme Hscheme);
        cbn [fst snd]; rewrite ?uuid4_world, ?uuid4_int; reflexivity.
    + split; [|split; [|intros relay_state]];
        rewrite ?(generate_room_raises _ _ Hscheme);
        cbn [fst snd]; rewrite ?uuid4_world; reflexivity.
  - split; [reflexivity|]. split; [reflexivity|]. intros relay_state. reflexivity.
  - split; [reflexivity|]. split; [reflexivity|]. intros relay_state. reflexivity.
Qed.

Example generate_room_sample :
  match (generate_room sample_request (World abc_room counting_bytes 0)).1 with
  | inr response => context_get "share_link" response
  | inl _ => None
  end
  = Some (CtxText "https://example.org/share/00010203-0405-4607-8809-0a0b0c0d0e0f").
Proof. vm_compute. reflexivity. Qed.

(** A request whose URL does not parse gets no response, and the sixteen
    random bytes of its identifier are spent. *)
Example generate_room_broken :
  (generate_room broken_request (World abc_room counting_bytes 0)).1
  = inl ValueError
  ∧ drawn (generate_room broken_request (World abc_room counting_bytes 0)).2 = 16.
Proof. vm_compute. split; reflexivity. Qed.

(** * Further properties of the relay *)

Section relay_more.
Implicit Types (s : system) (websocket : chan) (room_id : string).

Lemma list_remove_snoc (x : chan) (l : list chan) :
  x ∉ l → list_remove x (l ++ [x]) = Some l.
Proof.
  induction l as [|y l IH]; intros Hout; simpl.
  - by rewrite decide_True.
  - rewrite decide_False by (intros ->; apply Hout; left).
    rewrite IH; [done|]. intros ?. apply Hout. by right.
Qed.

Lemma join_insert room_id websocket (connections : registry) :
  join room_id websocket connections
  = <[room_id := default [] (connections !! room_id) ++ [websocket]]> connections.
Proof.
  apply map_eq. intros room. destruct (decide (room = room_id)) as [->|Hne].
  - by rewrite join_lookup, lookup_insert_eq.
  - by rewrite join_lookup_ne, lookup_insert_ne.
Qed.

(** A send goes to a connection whose handler is inside its loop. *)
Lemma step_call_target_joined ev s s' call :
  consistent s → step ev s = Some s' → call ∈ new_calls s s' →
  ∃ room_id p, tasks s !! target call = Some (room_id, p) ∧ joined p.
Proof.
  intros Hc Hstep Hin.
  destruct (step_new_calls _ _ _ _ Hc Hstep Hin)
    as (room_id & p & l & i & i' & _ & _ & Hl & Hnext).
  apply for_next_Some in Hnext as (_ & Htarget & _).
  destruct (member_task _ Hc _ _ _ Hl Htarget) as (q & Hq & Hj).
  by exists room_id, q.
Qed.

(** An ended handler is out of every list and out of every later call. *)
Lemma run_finished_untouched evs s s' websocket room_id outcome :
  consistent s → tasks s !! websocket = Some (room_id, Finished outcome) →
  run evs s = Some s' →
  (∀ room l, connections s' !! room = Some l → websocket ∉ l)
  ∧ ∀ call, call ∈ new_calls s s' →
      target call ≠ websocket ∧ sender call ≠ websocket.
Proof.
  intros Hc Ht Hrun.
  destruct (run_finished_silent _ _ _ _ _ _ Hc Ht Hrun) as [Hfin Hsilent].
  split.
  - intros room l Hl.
    eapply (not_joined_not_member s' websocket);
      [by eapply run_consistent | done | by intros [] | done].
  - intros call Hin. split; [|by apply Hsilent].
    clear Hfin Hsilent. revert s Hc Ht Hrun Hin.
    induction evs as [|ev evs IH]; intros s Hc Ht; simpl.
    + intros [= <-]. rewrite new_calls_same by done.
      by intros ?%not_elem_of_nil.
    + destruct (step ev s) as [s1|] eqn:E; [|done]. intros Hrun.
      rewrite (new_calls_step_run _ _ _ _ _ E Hrun).
      intros [Hin|Hin]%elem_of_app.
      * destruct (step_call_target_joined _ _ _ _ Hc E Hin) as (r & p & Hp & Hj).
        intros Heq. rewrite Heq, Ht in Hp. by injection Hp as <- <-.
      * apply (IH s1); [by eapply step_consistent | | done | done].
        destruct (run_finished_silent [ev] s s1 websocket room_id outcome Hc Ht)
          as [H1 _]; [simpl; by rewrite E | done].
Qed.
End relay_more.

(** X1.  In every state the server can reach, a room's collection holds
    exactly the channels of the handlers of that room that have been
    accepted and have not ended: no registered channel is without a
    running handler, and no running handler is unregistered. *)
Theorem registry_holds_running_handlers s websocket room_id :
  reachable s →
  (∃ l, connections s !! room_id = Some l ∧ websocket ∈ l)
  ↔ (∃ p, tasks s !! websocket = Some (room_id, p) ∧ joined p).
Proof.
  intros Hc%reachable_consistent. split.
  - intros (l & Hl & Hin). by eapply member_task.
  - intros (p & Ht & Hj). by eapply task_member.
Qed.

Lemma registry_holds_running_handlers_witness :
  reachable abc_room
  ∧ ((∃ l, connections abc_room !! "abc"%string = Some l ∧ P2 ∈ l)
     ↔ (∃ p, tasks abc_room !! P2 = Some ("abc"%string, p) ∧ joined p)).
Proof.
  split; [exact abc_room_reachable|].
  exact (registry_holds_running_handlers abc_room P2 "abc" abc_room_reachable).
Defined.

(** X2.  Rooms are independent: a run in which no handler called for room
    [room_id] takes a step leaves the collection of that room as it was,
    whatever the handlers of the other rooms do (join, relay, fail,
    leave). *)
Theorem other_rooms_are_untouched evs s s' room_id :
  run evs s = Some s' →
  (∀ ev p, ev ∈ evs → tasks s' !! subject ev ≠ Some (room_id, p)) →
  connections s' !! room_id = connections s !! room_id.
Proof.
  revert s. induction evs as [|ev evs IH]; intros s; simpl.
  - by intros [= <-].
  - destruct (step ev s) as [s1|] eqn:E; [|done]. intros Hrun Hquiet.
    rewrite (IH s1 Hrun) by (intros ev' p Hin; apply Hquiet; by right).
    assert (∀ p, tasks s !! subject ev ≠ Some (room_id, p)) as Hnot.
    { intros p Ht.
      destruct (step_task_room _ _ _ _ _ _ E Ht) as [p1 Ht1].
      destruct (run_task_room _ _ _ _ _ _ Hrun Ht1) as [p2 Ht2].
      apply (Hquiet ev p2); [left | done]. }
    clear Hrun Hquiet IH.
    assert (∀ ws r o, r ≠ room_id →
      connections (finally_clause ws r o s) !! room_id
      = connections s !! room_id) as Hfin.
    { intros ws r o Hne. unfold finally_clause.
      destruct (leave r ws (connections s)) as [e|c'] eqn:El; [done|].
      apply leave_inr in El as (l & l' & _ & _ & ->). simpl.
      by rewrite lookup_insert_ne. }
    assert (∀ ws r data i, r ≠ room_id →
      connections (relay ws r data i s) !! room_id
      = connections s !! room_id) as Hrelay.
    { intros ws r data i Hne. unfold relay, unwind.
      destruct (connections s !! r) as [l|]; [|by apply Hfin].
      by destruct (for_next ws l i) as [[c i']|]. }
    destruct ev as [ws r|ws|ws data|ws|ws e]; simpl in *;
      destruct (tasks s !! ws) as [[r0 p]|] eqn:Ht; try done;
      try (destruct p; try done); injection E as <-; simpl; try done;
      assert (r0 ≠ room_id) as Hne by (intros ->; by eapply Hnot).
    + by rewrite join_lookup_ne.
    + by apply Hrelay.
    + by apply Hrelay.
    + by apply Hfin.
    + by apply Hfin.
Qed.

Lemma other_rooms_are_untouched_witness :
  ∃ s', run [Received P3 "hi"; Raised P3 WebSocketDisconnect] two_rooms = Some s'
    ∧ connections s' !! "abc"%string = Some [P1; P2].
Proof.
  destruct (run [Received P3 "hi"; Raised P3 WebSocketDisconnect] two_rooms)
    as [s'|] eqn:Hrun; [|vm_compute in Hrun; discriminate].
  exists s'. split; [reflexivity|].
  rewrite (other_rooms_are_untouched _ _ _ "abc"%string Hrun).
  - vm_compute. reflexivity.
  - intros ev p Hin.
    assert (subject ev = P3) as ->.
    { repeat (apply elem_of_cons in Hin as [->|Hin]; [reflexivity|]).
      by apply not_elem_of_nil in Hin. }
    vm_compute in Hrun. injection Hrun as <-. vm_compute. discriminate.
Defined.

(** X3.  Join and leave compose to the identity on collections: removing
    a channel right after appending it gives every room its previous
    collection back, provided the channel was not in the room already; the
    room itself stays, with the empty collection when the join created
    it. *)
Theorem join_then_leave room_id websocket (connections : registry) :
  websocket ∉ default [] (connections !! room_id) →
  leave room_id websocket (join room_id websocket connections)
  = inr (<[room_id := default [] (connections !! room_id)]> connections)
  ∧ (is_Some (connections !! room_id) →
     leave room_id websocket (join room_id websocket connections)
     = inr connections).
Proof.
  intros Hout.
  assert (leave room_id websocket (join room_id websocket connections)
          = inr (<[room_id := default [] (connections !! room_id)]> connections))
    as Heq.
  { unfold leave. rewrite join_lookup, list_remove_snoc by done.
    by rewrite join_insert, insert_insert_eq. }
  split; [done|]. intros [l Hl]. rewrite Heq, Hl. simpl.
  by rewrite insert_id.
Qed.

Lemma join_then_leave_witness :
  leave "x" 5 (join "x" 5 {[ "y"%string := [4] ]})
  = inr (<[ "x"%string := [] ]> {[ "y"%string := [4] ]})
  ∧ leave "y" 5 (join "y" 5 {[ "y"%string := [4] ]}) = inr {[ "y"%string := [4] ]}.
Proof.
  split.
  - refine (proj1 (join_then_leave "x" 5 {[ "y"%string := [4] ]} _)).
    vm_compute. apply not_elem_of_nil.
  - refine (proj2 (join_then_leave "y" 5 {[ "y"%string := [4] ]} _) _).
    + vm_compute. intros Hin.
      apply elem_of_cons in Hin as [Heq|Hin]; [discriminate|].
      by apply not_elem_of_nil in Hin.
    + vm_compute. eexists. reflexivity.
Defined.

(** X4.  Once a handler has ended, because its client disconnected or for
    any other reason, its channel is in no room's collection at any later
    time and no later [send_text] call is made to it or by it. *)
Theorem ended_handler_is_left_alone evs s s' websocket room_id outcome :
  reachable s → tasks s !! websocket = Some (room_id, Finished outcome) →
  run evs s = Some s' →
  (∀ room l, connections s' !! room = Some l → websocket ∉ l)
  ∧ ∀ call, call ∈ new_calls s s' →
      target call ≠ websocket ∧ sender call ≠ websocket.
Proof.
  intros Hc%reachable_consistent Ht Hrun. by eapply run_finished_untouched.
Qed.

(** X5.  An exception of [accept], even a [WebSocketDisconnect], is outside
    the [try] statement: it is raised out of the handler, the registry is
    not touched, and the channel is never registered nor sent to
    afterwards. *)
Theorem failed_handshake_never_joins s websocket room_id e :
  reachable s → tasks s !! websocket = Some (room_id, Accepting) →
  ∃ s1,
    step (Raised websocket e) s = Some s1
    ∧ connections s1 = connections s
    ∧ tasks s1 !! websocket = Some (room_id, Finished (Some e))
    ∧ ∀ evs s', run evs s1 = Some s' →
        (∀ room l, connections s' !! room = Some l → websocket ∉ l)
        ∧ ∀ call, call ∈ new_calls s s' →
            target call ≠ websocket ∧ sender call ≠ websocket.
Proof.
  intros Hreach Ht. pose proof (reachable_consistent _ Hreach) as Hc.
  assert (step (Raised websocket e) s
          = Some (suspend websocket room_id (Finished (Some e)) s)) as Hstep
    by (simpl; by rewrite Ht).
  eexists. split; [exact Hstep|]. split; [done|].
  split; [simpl; by rewrite lookup_insert_eq|].
  intros evs s' Hrun.
  assert (new_calls s s'
          = new_calls (suspend websocket room_id (Finished (Some e)) s) s')
    as -> by done.
  eapply run_finished_untouched; [by eapply step_consistent | | done].
  simpl. by rewrite lookup_insert_eq.
Qed.

Lemma abc_room_P2_gone_reachable : reachable abc_room_P2_gone.
Proof.
  exists (three_joined ++ [Raised P2 WebSocketDisconnect]).
  vm_compute. reflexivity.
Qed.

Lemma abc_room_pending_reachable : reachable abc_room_pending.
Proof. exists (three_joined ++ [Connect 4 "abc"]). vm_compute. reflexivity. Qed.

Lemma ended_handler_is_left_alone_witness :
  ∃ s', run [Received P1 "hello"; Sent P1] abc_room_P2_gone = Some s'
    ∧ new_calls abc_room_P2_gone s' = [SendCall P1 P3 "hello"]
    ∧ ∀ call, call ∈ new_calls abc_room_P2_gone s' → target call ≠ P2.
Proof.
  destruct (run [Received P1 "hello"; Sent P1] abc_room_P2_gone)
    as [s'|] eqn:Hrun; [|vm_compute in Hrun; discriminate].
  exists s'. split; [reflexivity|]. split.
  - vm_compute in Hrun. injection Hrun as <-. vm_compute. reflexivity.
  - intros call Hin.
    refine (proj1 (proj2 (ended_handler_is_left_alone _ abc_room_P2_gone s' P2
      "abc" None abc_room_P2_gone_reachable _ Hrun) call Hin)).
    vm_compute. reflexivity.
Defined.

Lemma failed_handshake_never_joins_witness :
  ∃ s1, step (Raised 4 WebSocketDisconnect) abc_room_pending = Some s1
    ∧ connections s1 = connections abc_room_pending
    ∧ tasks s1 !! 4 = Some ("abc"%string, Finished (Some WebSocketDisconnect)).
Proof.
  destruct (failed_handshake_never_joins abc_room_pending 4 "abc"
              WebSocketDisconnect abc_room_pending_reachable)
    as (s1 & Hstep & Hconn & Hfin & _).
  - vm_compute. reflexivity.
  - exists s1. done.
Defined.

Section payloads.
Implicit Types (s : system) (websocket : chan) (room_id : string).

Lemma received_by_snoc websocket evs ev :
  received_by websocket (evs ++ [ev])
  = received_by websocket evs ++ received_by websocket [ev].
Proof. unfold received_by. by rewrite omap_app. Qed.

Lemma received_by_other websocket evs ev :
  (∀ data, ev ≠ Received websocket data) →
  received_by websocket (evs ++ [ev]) = received_by websocket evs.
Proof.
  intros Hne. rewrite received_by_snoc.
  assert (received_by websocket [ev] = []) as ->; [|by rewrite app_nil_r].
  unfold received_by. destruct ev as [|?|w data|?|]; try done. simpl.
  destruct (decide (w = websocket)) as [->|]; [|done]. by destruct (Hne data).
Qed.

Lemma received_by_last websocket evs data :
  last (received_by websocket (evs ++ [Received websocket data])) = Some data.
Proof.
  rewrite received_by_snoc. unfold received_by at 2. simpl.
  rewrite decide_True by done. by rewrite last_snoc.
Qed.

(** The relay of [data] sends [data], and is left sending [data]. *)
Lemma relay_payload websocket room_id data i s :
  (∀ call, call ∈ new_calls s (relay websocket room_id data i s) →
           sender call = websocket ∧ payload call = data)
  ∧ (∀ r d j, tasks (relay websocket room_id data i s) !! websocket
              = Some (r, Sending d j) → d = data).
Proof.
  unfold relay, unwind, finally_clause.
  destruct (connections s !! room_id) as [l|].
  - destruct (for_next websocket l i) as [[c i']|]; simpl.
    + split.
      * intros call. rewrite (new_calls_app _ _ [SendCall websocket c data]) by done.
        by intros ->%list_elem_of_singleton.
      * intros r d j. rewrite lookup_insert_eq. by intros [= _ <- _].
    + split.
      * intros call. rewrite new_calls_same by done. by intros ?%not_elem_of_nil.
      * intros r d j. by rewrite lookup_insert_eq.
  - destruct (leave room_id websocket (connections s)); simpl; split;
      try (intros call; rewrite new_calls_same by done;
           by intros ?%not_elem_of_nil);
      intros r d j; by rewrite lookup_insert_eq.
Qed.

Lemma holding_step evs ev s s' :
  holding evs s → step ev s = Some s' →
  holding (evs ++ [ev]) s'
  ∧ ∀ call, call ∈ new_calls s s' →
      last (received_by (sender call) (evs ++ [ev])) = Some (payload call).
Proof.
  intros Hold Hstep.
  assert (∀ w room_id data i, w ≠ subject ev →
    tasks s' !! w = Some (room_id, Sending data i) →
    last (received_by w (evs ++ [ev])) = Some data) as Hothers.
  { intros w room_id data i Hne Ht.
    rewrite (step_other_task _ _ _ _ Hstep Hne) in Ht.
    rewrite received_by_other; [by eapply Hold|].
    intros d ->. by apply Hne. }
  assert (∀ room_id p data i,
    tasks s !! subject ev = Some (room_id, p) →
    s' = relay (subject ev) room_id data i s →
    last (received_by (subject ev) (evs ++ [ev])) = Some data →
    holding (evs ++ [ev]) s'
    ∧ ∀ call, call ∈ new_calls s s' →
        last (received_by (sender call) (evs ++ [ev])) = Some (payload call))
    as Hrelay.
  { intros room_id p data i Ht -> Hlast.
    destruct (relay_payload (subject ev) room_id data i s) as [Hcalls Hpc].
    split.
    - intros w r d j Hw. destruct (decide (w = subject ev)) as [->|Hne].
      + by rewrite (Hpc _ _ _ Hw).
      + by eapply Hothers.
    - intros call [-> ->]%Hcalls. done. }
  assert (calls s' = calls s →
    (∀ r d j, tasks s' !! subject ev ≠ Some (r, Sending d j)) →
    holding (evs ++ [ev]) s'
    ∧ ∀ call, call ∈ new_calls s s' →
        last (received_by (sender call) (evs ++ [ev])) = Some (payload call))
    as Hstill.
  { intros Hcalls Hpc. split.
    - intros w r d j Hw. destruct (decide (w = subject ev)) as [->|Hne].
      + by destruct (Hpc r d j).
      + by eapply Hothers.
    - intros call. rewrite new_calls_same by done. by intros ?%not_elem_of_nil. }
  destruct ev as [ws r|ws|ws data|ws|ws e]; simpl in Hstep;
    destruct (tasks s !! ws) as [[room_id p]|] eqn:Ht; try done;
    try (destruct p; try done); injection Hstep as Hs'.
  - apply Hstill; subst s'; [done|]. intros r0 d j. simpl.
    by rewrite lookup_insert_eq.
  - apply Hstill; subst s'; [done|]. intros r0 d j. simpl.
    by rewrite lookup_insert_eq.
  - apply (Hrelay room_id Receiving data 0); [done | done |].
    apply received_by_last.
  - apply (Hrelay room_id (Sending data i) data i); [done | done |].
    simpl. rewrite received_by_other by done. by eapply Hold.
  - apply Hstill; subst s'; [done|]. intros r0 d j. simpl.
    by rewrite lookup_insert_eq.
  - apply Hstill; subst s'; [apply finally_clause_calls|]. intros r0 d j.
    unfold unwind, finally_clause.
    destruct (leave room_id ws (connections s)); simpl;
      by rewrite lookup_insert_eq.
  - apply Hstill; subst s'; [apply finally_clause_calls|]. intros r0 d j.
    unfold unwind, finally_clause.
    destruct (leave room_id ws (connections s)); simpl;
      by rewrite lookup_insert_eq.
Qed.

Lemma run_holding evs pre s s' :
  holding pre s → run evs s = Some s' → holding (pre ++ evs) s'.
Proof.
  revert pre s. induction evs as [|ev evs IH]; intros pre s Hold; simpl.
  - intros [= <-]. by rewrite app_nil_r.
  - destruct (step ev s) as [s1|] eqn:E; [|done]. intros Hrun.
    replace (pre ++ ev :: evs) with ((pre ++ [ev]) ++ evs)
      by (by rewrite <- app_assoc).
    eapply IH; [|done]. by apply (holding_step pre ev s s1).
Qed.
End payloads.

(** X6.  Every [send_text] call carries, unmodified, the text its sender's
    [receive_text] returned last: the relay never sends an older text, a
    text of another handler, or a text nobody sent. *)
Theorem sends_carry_last_received evs s ev s' call :
  run evs startup = Some s → step ev s = Some s' → call ∈ new_calls s s' →
  last (received_by (sender call) (evs ++ [ev])) = Some (payload call).
Proof.
  intros Hrun Hstep Hin.
  assert (holding evs s) as Hold.
  { apply (run_holding evs [] startup s); [|done].
    intros w r d i. unfold startup. simpl. by rewrite lookup_empty. }
  by apply (holding_step evs ev s s').
Qed.

Lemma sends_carry_last_received_witness :
  ∃ s s', run second_text startup = Some s
    ∧ step (Sent P2) s = Some s'
    ∧ new_calls s s' = [SendCall P2 P3 "b"]
    ∧ last (received_by P2 (second_text ++ [Sent P2])) = Some "b"%string.
Proof.
  destruct (run second_text startup) as [s|] eqn:Hrun;
    [|vm_compute in Hrun; discriminate].
  destruct (step (Sent P2) s) as [s'|] eqn:Hstep;
    [|vm_compute in Hrun; injection Hrun as <-; vm_compute in Hstep; discriminate].
  assert (new_calls s s' = [SendCall P2 P3 "b"]) as Hnew.
  { vm_compute in Hrun. injection Hrun as <-.
    vm_compute in Hstep. injection Hstep as <-. vm_compute. reflexivity. }
  exists s, s'. repeat (split; [done|]).
  apply (sends_carry_last_received second_text s (Sent P2) s'
           (SendCall P2 P3 "b") Hrun Hstep).
  rewrite Hnew. apply list_elem_of_singleton. reflexivity.
Defined.

(** X7.  Within one broadcast no connection is sent the text twice,
    whatever happens meanwhile: other handlers may join the room, leave
    it, relay texts of their own or fail, and the broadcast itself may be
    cut short by an exception. *)
Theorem no_peer_is_sent_twice s websocket room_id data evs s' :
  reachable s → tasks s !! websocket = Some (room_id, Receiving) →
  run (Received websocket data :: evs) s = Some s' →
  (∀ d, Received websocket d ∉ evs) →
  NoDup (target <$> calls_of websocket (new_calls s s')).
Proof.
  intros Hc%reachable_consistent Ht Hrun Hrecv.
  assert (sent_once websocket [] s) as Hinit.
  { unfold sent_once, calls_of. cbv zeta. rewrite filter_nil. simpl.
    split; [apply NoDup_nil_2|]. split; [by intros c ?%not_elem_of_nil|].
    split; [by exists room_id, Receiving|].
    intros r d j Hs. congruence. }
  simpl in Hrun. destruct (step (Received websocket data) s) as [s1|] eqn:E;
    [|by simpl in E; rewrite Ht in E].
  assert (run evs s1 = Some s') as Hrun1.
  { simpl in E. rewrite Ht in E. injection E as <-. by rewrite Ht in Hrun. }
  pose proof (sent_once_step _ _ _ _ [] Hc Hinit E (λ _ _, eq_refl)) as H1.
  pose proof (sent_once_run _ _ _ _ _ (step_consistent _ _ _ Hc E) H1 Hrun1 Hrecv)
    as [Hnd _].
  simpl in Hnd. by rewrite <- (new_calls_step_run _ _ _ _ _ E Hrun1) in Hnd.
Qed.

Lemma no_peer_is_sent_twice_witness :
  ∃ s', run [ Received P1 "hello"; Connect 4 "abc"; Accepted 4;
              Raised P2 WebSocketDisconnect; Sent P1; Sent P1 ] abc_room
        = Some s'
    ∧ target <$> calls_of P1 (new_calls abc_room s') = [P2; 4]
    ∧ NoDup (target <$> calls_of P1 (new_calls abc_room s')).
Proof.
  destruct (run [ Received P1 "hello"; Connect 4 "abc"; Accepted 4;
                  Raised P2 WebSocketDisconnect; Sent P1; Sent P1 ] abc_room)
    as [s'|] eqn:Hrun; [|vm_compute in Hrun; discriminate].
  exists s'. split; [reflexivity|]. split.
  - vm_compute in Hrun. injection Hrun as <-. vm_compute. reflexivity.
  - apply (no_peer_is_sent_twice abc_room P1 "abc" "hello"
             [ Connect 4 "abc"; Accepted 4; Raised P2 WebSocketDisconnect;
               Sent P1; Sent P1 ] s' abc_room_reachable);
      [vm_compute; reflexivity | exact Hrun |].
    intros d Hin.
    repeat (apply elem_of_cons in Hin as [Heq|Hin]; [discriminate|]).
    by apply not_elem_of_nil in Hin.
Defined.

Section order.
Implicit Types (s : system) (websocket : chan) (room_id : string).

Lemma list_remove_sublist (x : chan) (l l' : list chan) :
  list_remove x l = Some l' → l' `sublist_of` l.
Proof.
  revert l'. induction l as [|y l IH]; intros l'; simpl; [done|].
  destruct (decide (y = x)) as [->|Hne].
  - intros [= <-]. by apply sublist_cons.
  - destruct (list_remove x l) as [r|]; [|done]. intros [= <-].
    apply sublist_skip. by apply IH.
Qed.

(** Under a step a room's list shrinks to a sublist, or grows at the end by
    a connection that was waiting for [accept]. *)
Lemma step_list_shape ev s s' r l :
  consistent s → step ev s = Some s' → connections s !! r = Some l →
  ∃ l', connections s' !! r = Some l'
    ∧ (l' `sublist_of` l
       ∨ ∃ w, l' = l ++ [w] ∧ tasks s !! w = Some (r, Accepting)).
Proof.
  intros Hc Hstep Hl.
  assert (connections s' = connections s →
    ∃ l', connections s' !! r = Some l'
      ∧ (l' `sublist_of` l
         ∨ ∃ w, l' = l ++ [w] ∧ tasks s !! w = Some (r, Accepting))) as Hsame.
  { intros ->. exists l. split; [done|]. by left. }
  assert (∀ ws r0 p data i, tasks s !! ws = Some (r0, p) → joined p →
    connections (relay ws r0 data i s) = connections s) as Hrelay.
  { intros ws r0 p data i Ht Hj.
    by destruct (relay_joined s ws r0 p data i Hc Ht Hj)
      as (k & _ & [(c & i' & _ & ->)|[_ ->]]). }
  assert (∀ ws r0 p e, tasks s !! ws = Some (r0, p) → joined p →
    s' = unwind ws r0 e s →
    ∃ l', connections s' !! r = Some l'
      ∧ (l' `sublist_of` l
         ∨ ∃ w, l' = l ++ [w] ∧ tasks s !! w = Some (r, Accepting))) as Hunwind.
  { intros ws r0 p e Ht Hj ->.
    destruct (unwind_joined s ws r0 p e Hc Ht Hj) as (k & k' & Hk & _ & Hrm & ->).
    simpl. destruct (decide (r = r0)) as [->|Hne].
    - rewrite lookup_insert_eq. exists k'. split; [done|]. left.
      rewrite Hl in Hk. injection Hk as <-. by eapply list_remove_sublist.
    - rewrite lookup_insert_ne by done. exists l. split; [done|]. by left. }
  destruct ev as [ws r1|ws|ws data|ws|ws e]; simpl in Hstep;
    destruct (tasks s !! ws) as [[r0 p]|] eqn:Ht; try done;
    try (destruct p; try done); injection Hstep as Hs'.
  - apply Hsame. by subst s'.
  - subst s'. simpl. destruct (decide (r = r0)) as [->|Hne].
    + rewrite join_lookup, Hl. simpl. exists (l ++ [ws]). split; [done|].
      right. by exists ws.
    + rewrite join_lookup_ne by done. exists l. split; [done|]. by left.
  - apply Hsame. subst s'. by apply (Hrelay ws r0 Receiving).
  - apply Hsame. subst s'. by apply (Hrelay ws r0 (Sending data i)).
  - apply Hsame. by subst s'.
  - by apply (Hunwind ws r0 Receiving e).
  - by apply (Hunwind ws r0 (Sending data i) e).
Qed.

Lemma in_arrival_order_run evs s s' r l l_now :
  consistent s → connections s !! r = Some l_now →
  in_arrival_order l l_now s → run evs s = Some s' →
  ∃ l', connections s' !! r = Some l' ∧ in_arrival_order l l' s'.
Proof.
  revert s l_now. induction evs as [|ev evs IH]; intros s l_now Hc Hl Hord; simpl.
  - intros [= <-]. by exists l_now.
  - destruct (step ev s) as [s1|] eqn:E; [|done]. intros Hrun.
    destruct (step_list_shape _ _ _ _ _ Hc E Hl) as (l1 & Hl1 & Hshape).
    apply (IH s1 l1); [by eapply step_consistent | done | | done].
    destruct Hord as [(kept & new & -> & Hsub & Hnew) Hacc]. split.
    + destruct Hshape as [Hshrunk|(w & -> & Hw)].
      * apply sublist_app_r in Hshrunk as (k1 & k2 & -> & Hk1 & Hk2).
        exists k1, k2. split; [done|]. split; [by etransitivity|].
        intros c Hin. apply Hnew. by eapply elem_of_sublist.
      * exists kept, (new ++ [w]). split; [by rewrite app_assoc|].
        split; [done|].
        intros c [Hin|Hin]%elem_of_app; [by apply Hnew|].
        apply list_elem_of_singleton in Hin as ->. intros Hin.
        destruct (Hacc _ Hin) as (r0 & p & Hp & Hne). congruence.
    + intros c (r0 & p & Hp & Hne)%Hacc.
      destruct (step_not_accepting _ _ _ _ _ _ E Hp Hne) as (p' & ? & ?).
      by exists r0, p'.
Qed.
End order.

(** X8.  A room's collection stays in order of arrival: along every run,
    the connections that are still in the room keep the relative order
    they had, and every connection that joined meanwhile stands behind all
    of them. *)
Theorem collection_keeps_arrival_order evs s s' room_id l :
  reachable s → run evs s = Some s' → connections s !! room_id = Some l →
  ∃ kept new,
    connections s' !! room_id = Some (kept ++ new)
    ∧ kept `sublist_of` l
    ∧ ∀ c, c ∈ new → c ∉ l.
Proof.
  intros Hc%reachable_consistent Hrun Hl.
  destruct (in_arrival_order_run evs s s' room_id l l Hc Hl) as (l' & Hl' & Hord);
    [|done|].
  - split.
    + exists l, []. rewrite app_nil_r. split; [done|]. split; [done|].
      by intros c ?%not_elem_of_nil.
    + intros c Hin. destruct (member_task _ Hc _ _ _ Hl Hin) as (p & Hp & Hj).
      exists room_id, p. split; [done|]. by destruct p.
  - destruct Hord as [(kept & new & -> & Hsub & Hnew) _]. by exists kept, new.
Qed.

Lemma collection_keeps_arrival_order_witness :
  ∃ s', run [Connect 4 "abc"; Raised P2 ConnectionError; Accepted 4] abc_room
        = Some s'
    ∧ connections s' !! "abc"%string = Some ([P1; P3] ++ [4])
    ∧ ∃ kept new, connections s' !! "abc"%string = Some (kept ++ new)
        ∧ kept `sublist_of` [P1; P2; P3].
Proof.
  destruct (run [Connect 4 "abc"; Raised P2 ConnectionError; Accepted 4] abc_room)
    as [s'|] eqn:Hrun; [|vm_compute in Hrun; discriminate].
  exists s'. split; [reflexivity|]. split.
  - vm_compute in Hrun. injection Hrun as <-. vm_compute. reflexivity.
  - destruct (collection_keeps_arrival_order _ abc_room s' "abc" [P1; P2; P3]
                abc_room_reachable Hrun) as (kept & new & Hl & Hsub & _).
    + vm_compute. reflexivity.
    + by exists kept, new.
Defined.

(** * Further properties of the HTTP handlers *)

Section pages.

Lemma append_inj_r (prefix a b : string) :
  prefix +:+ a = prefix +:+ b → a = b.
Proof.
  induction prefix as [|c prefix IH]; simpl; [done|].
  intros [= H]. by apply IH.
Qed.

Lemma filter_hyphens_hex (digits : list ascii) :
  Forall (λ c, is_hex_digit c = true) digits →
  filter (λ c, c ≠ "-"%char) digits = digits.
Proof.
  induction 1 as [|c digits Hc _ IH]; [done|].
  rewrite filter_cons_True by (intros ->; done). by rewrite IH.
Qed.

(** The identifier reads back as the number it was made from. *)
Lemma uuid_str_read (int : Z) :
  (0 ≤ int < 2 ^ 128)%Z → read_uuid (uuid_str int) = int.
Proof.
  intros Hint.
  destruct (uuid_str_shape int Hint)
    as [(g1 & g2 & g3 & g4 & g5 & -> & _ & Hhex & Hval) _].
  unfold read_uuid. rewrite list_ascii_of_string_of_list_ascii.
  transitivity (hex_value (g1 ++ g2 ++ g3 ++ g4 ++ g5)); [|exact Hval]. f_equal.
  rewrite !Forall_app in Hhex. destruct Hhex as (H1 & H2 & H3 & H4 & H5).
  repeat first [ rewrite filter_app
               | rewrite (filter_cons_False _ "-"%char) by (intros H; by apply H) ].
  by rewrite !filter_hyphens_hex.
Qed.

Lemma headers_get_absent (key default : string) (hs : list (string * string)) :
  Forall (λ kv, kv.1 ≠ key) hs → headers_get key default hs = default.
Proof.
  unfold headers_get. induction 1 as [|kv hs Hkv _ IH]; [done|]. simpl.
  by rewrite bool_decide_eq_false_2.
Qed.

Lemma headers_get_first (key default value : string)
    (pre post : list (string * string)) :
  Forall (λ kv, kv.1 ≠ key) pre →
  headers_get key default (pre ++ (key, value) :: post) = value.
Proof.
  unfold headers_get. induction 1 as [|kv hs Hkv _ IH]; simpl.
  - by rewrite bool_decide_eq_true_2.
  - by rewrite bool_decide_eq_false_2.
Qed.

End pages.

(** X9.  The identifier is a faithful name of its 128-bit value: read back
    as a hexadecimal numeral without the hyphens it gives the value, so two
    different values never get the same identifier. *)
Theorem uuid_str_is_injective (a b : Z) :
  (0 ≤ a < 2 ^ 128)%Z → (0 ≤ b < 2 ^ 128)%Z →
  read_uuid (uuid_str a) = a ∧ (uuid_str a = uuid_str b → a = b).
Proof.
  intros Ha Hb. split; [by apply uuid_str_read|].
  intros Heq. rewrite <- (uuid_str_read a Ha), <- (uuid_str_read b Hb).
  by rewrite Heq.
Qed.

Lemma uuid_str_is_injective_witness :
  read_uuid (uuid_str 255) = 255%Z
  ∧ (uuid_str 255 = uuid_str 256 → 255 = 256)%Z.
Proof. apply (uuid_str_is_injective 255 256); split; lia || done. Defined.

(** X10.  Two requests to [/] in a row take their identifiers from
    consecutive blocks of sixteen random bytes, whether the first is
    answered or raises at line 59: each request spends sixteen bytes and
    leaves the relay state alone; the identifier in the links of the
    second answer is made of the sixteen bytes that follow those of the
    first request; and when both are answered their identifiers differ as
    soon as the two blocks differ in a bit that is not overwritten by
    version and variant. *)
Theorem two_rooms_in_a_row (r1 r2 : request) (w : world) (scheme : string) :
  url_scheme r2 = Some scheme →
  let first := generate_room r1 w in
  let second := generate_room r2 first.2 in
  let w1 := World (process w) (urandom w) (drawn w + 16) in
  first.2 = w1
  ∧ second.2 = World (process w) (urandom w) (drawn w + 32)
  ∧ (url_scheme r1 = None → first.1 = inl ValueError)
  ∧ ∃ (int2 : Z) (response2 : template_response),
      second.1 = inr response2
      ∧ (0 ≤ int2 < 2 ^ 128)%Z
      ∧ (∀ i, (0 ≤ i < 128)%Z → i ∉ fixed_bits →
              Z.testbit int2 i = random_bit w1 i)
      ∧ context_get "share_link" response2
        = Some (CtxText ((scheme +:+ "://"
                          +:+ headers_get "host" "localhost:8088" (headers r2))
                         +:+ "/share/" +:+ uuid_str int2))
      ∧ context_get "view_link" response2
        = Some (CtxText ((scheme +:+ "://"
                          +:+ headers_get "host" "localhost:8088" (headers r2))
                         +:+ "/view/" +:+ uuid_str int2))
      ∧ ∀ scheme1, url_scheme r1 = Some scheme1 →
          ∃ (int1 : Z) (response1 : template_response),
            first.1 = inr response1
            ∧ (∀ i, (0 ≤ i < 128)%Z → i ∉ fixed_bits →
                    Z.testbit int1 i = random_bit w i)
            ∧ context_get "share_link" response1
              = Some (CtxText ((scheme1 +:+ "://"
                                +:+ headers_get "host" "localhost:8088"
                                      (headers r1))
                               +:+ "/share/" +:+ uuid_str int1))
            ∧ ((∃ i, (0 ≤ i < 128)%Z ∧ (i ∉ fixed_bits)
                     ∧ random_bit w i ≠ random_bit w1 i) →
               uuid_str int1 ≠ uuid_str int2).
Proof.
  intros Hscheme2 first second w1.
  assert (first.2 = w1) as Hw1.
  { unfold first. destruct (url_scheme r1) as [scheme1|] eqn:Hscheme1.
    - rewrite (generate_room_returns _ _ scheme1 Hscheme1). apply uuid4_world.
    - rewrite (generate_room_raises _ _ Hscheme1). apply uuid4_world. }
  destruct (generate_room_identifier r2 w1 scheme Hscheme2)
    as (int2 & response2 & Hrun2 & Hint2 & Hbits2 & _ & Hshare2 & Hview2).
  unfold second. rewrite Hw1, Hrun2. cbn [fst snd drawn process urandom w1].
  split; [reflexivity|]. split; [f_equal; lia|]. split.
  { intros Hnone. unfold first. by rewrite (generate_room_raises _ _ Hnone). }
  exists int2, response2. repeat (split; [done|]).
  intros scheme1 Hscheme1.
  destruct (generate_room_identifier r1 w scheme1 Hscheme1)
    as (int1 & response1 & Hrun1 & Hint1 & Hbits1 & _ & Hshare1 & _).
  exists int1, response1. unfold first. rewrite Hrun1.
  repeat (split; [done|]).
  intros (i & Hi & Hfree & Hdiffer) Heq. apply Hdiffer.
  rewrite <- (Hbits1 i Hi Hfree), <- (Hbits2 i Hi Hfree). f_equal.
  rewrite <- (uuid_str_read int1 Hint1), <- (uuid_str_read int2 Hint2).
  by rewrite Heq.
Qed.

Lemma two_rooms_in_a_row_witness :
  url_scheme sample_request = Some "https"%string
  ∧ (generate_room broken_request (World startup counting_bytes 0)).1
    = inl ValueError
  ∧ ∃ (int2 : Z) (response2 : template_response),
      (generate_room sample_request
         (generate_room broken_request (World startup counting_bytes 0)).2).1
      = inr response2
      ∧ Z.testbit int2 0 = random_bit (World startup counting_bytes 16) 0
      ∧ context_get "share_link" response2
        = Some (CtxText ("https://example.org/share/" +:+ uuid_str int2)).
Proof.
  split; [reflexivity|].
  destruct (two_rooms_in_a_row broken_request sample_request
              (World startup counting_bytes 0) "https" eq_refl)
    as (_ & _ & Hraises & int2 & response2 & Hrun & _ & Hbits & Hshare & _).
  split; [apply Hraises; reflexivity|].
  exists int2, response2. split; [exact Hrun|]. split; [|exact Hshare].
  apply Hbits; [lia|]. unfold fixed_bits. intros Hin.
  repeat (apply elem_of_cons in Hin as [Heq|Hin]; [discriminate|]).
  by apply not_elem_of_nil in Hin.
Defined.

Example second_room_sample :
  match (generate_room sample_request
           (generate_room broken_request (World startup counting_bytes 0)).2).1
  with
  | inr response => context_get "view_link" response
  | inl _ => None
  end
  = Some (CtxText "https://example.org/view/10111213-1415-4617-9819-1a1b1c1d1e1f").
Proof. vm_compute. reflexivity. Qed.

(** X11.  When [request.url.scheme] raises, [/] raises [ValueError] and
    answers with no links.  Otherwise the links of its response are built
    on [localhost:8088] when the request has no [Host] header, and on the
    value of the first when it has one or several. *)
Theorem links_take_first_host (r : request) (w : world) :
  (url_scheme r = None → (generate_room r w).1 = inl ValueError)
  ∧ ∀ scheme, url_scheme r = Some scheme →
      ∃ (int : Z) (response : template_response),
        (generate_room r w).1 = inr response
        ∧ (∀ i, (0 ≤ i < 128)%Z → i ∉ fixed_bits →
                Z.testbit int i = random_bit w i)
        ∧ (Forall (λ kv, kv.1 ≠ "host"%string) (headers r) →
           context_get "share_link" response
           = Some (CtxText ((scheme +:+ "://localhost:8088")
                            +:+ "/share/" +:+ uuid_str int))
           ∧ context_get "view_link" response
             = Some (CtxText ((scheme +:+ "://localhost:8088")
                              +:+ "/view/" +:+ uuid_str int)))
        ∧ ∀ pre host post,
            headers r = pre ++ ("host"%string, host) :: post →
            Forall (λ kv, kv.1 ≠ "host"%string) pre →
            context_get "share_link" response
            = Some (CtxText ((scheme +:+ "://" +:+ host)
                             +:+ "/share/" +:+ uuid_str int))
            ∧ context_get "view_link" response
              = Some (CtxText ((scheme +:+ "://" +:+ host)
                               +:+ "/view/" +:+ uuid_str int)).
Proof.
  split.
  - intros Hnone. by rewrite (generate_room_raises _ _ Hnone).
  - intros scheme Hscheme.
    destruct (generate_room_identifier r w scheme Hscheme)
      as (int & response & Hrun & _ & Hbits & _ & Hshare & Hview).
    exists int, response. rewrite Hrun. split; [reflexivity|].
    split; [exact Hbits|]. split.
    + intros Hnone. rewrite headers_get_absent in Hshare, Hview by done. done.
    + intros pre host post Hheaders Hpre.
      rewrite Hheaders, headers_get_first in Hshare, Hview by done. done.
Qed.

Lemma links_take_first_host_witness :
  (∃ (int : Z) (response : template_response),
     (generate_room bare_request (World startup counting_bytes 0)).1
     = inr response
     ∧ context_get "share_link" response
       = Some (CtxText ("http://localhost:8088/share/" +:+ uuid_str int)))
  ∧ ∃ (int : Z) (response : template_response),
      (generate_room two_hosts_request (World startup counting_bytes 0)).1
      = inr response
      ∧ context_get "view_link" response
        = Some (CtxText ("https://a.example/view/" +:+ uuid_str int)).
Proof.
  split.
  - destruct (proj2 (links_take_first_host bare_request
                       (World startup counting_bytes 0)) "http" eq_refl)
      as (int & response & Hrun & _ & Hnone & _).
    exists int, response. split; [exact Hrun|].
    apply Hnone. constructor.
  - destruct (proj2 (links_take_first_host two_hosts_request
                       (World startup counting_bytes 0)) "https" eq_refl)
      as (int & response & Hrun & _ & _ & Hfirst).
    exists int, response. split; [exact Hrun|].
    apply (Hfirst [("accept"%string, "*/*"%string)] "a.example"%string
             [("host"%string, "b.example"%string)]).
    + reflexivity.
    + repeat constructor. discriminate.
Defined.

(** X12.  The share and the view page name their room: the pages of two
    different room identifiers differ, whatever the request, and no share
    page is a view page. *)
Theorem pages_name_their_room (r r' : request) (a b : string) (w w' : world) :
  ((share_screen r a w).1 = (share_screen r' b w').1 → a = b)
  ∧ ((view_screen r a w).1 = (view_screen r' b w').1 → a = b)
  ∧ (share_screen r a w).1 ≠ (view_screen r' b w').1.
Proof.
  split; [|split].
  - intros [= _ Htitle _]. by apply append_inj_r in Htitle.
  - intros [= _ Htitle _]. by apply append_inj_r in Htitle.
  - intros Heq. injection Heq as _ Htitle _. simpl in Htitle. discriminate Htitle.
Qed.

Lemma pages_name_their_room_witness :
  (share_screen sample_request "abc" (World startup counting_bytes 0)).1
  ≠ (view_screen sample_request "abc" (World startup counting_bytes 0)).1.
Proof.
  apply (pages_name_their_room sample_request sample_request "abc" "abc"
           (World startup counting_bytes 0) (World startup counting_bytes 0)).
Defined.

Section version.
Local Open Scope Z_scope.

Lemma string_get_list (cs : list ascii) (k : nat) :
  String.get k (string_of_list_ascii cs) = cs !! k.
Proof.
  revert k. induction cs as [|c cs IH]; intros k; simpl; [done|].
  destruct k as [|k]; [done|]. apply IH.
Qed.

Lemma digit_value_bound (c : ascii) : 0 ≤ digit_value c < 16.
Proof. destruct c as [[] [] [] [] [] [] [] []]; vm_compute; by split. Qed.

Lemma hex_value_from (digits : list ascii) (acc : Z) :
  fold_left (λ acc c, acc * 16 + digit_value c) digits acc
  = acc * 16 ^ Z.of_nat (length digits) + hex_value digits.
Proof.
  unfold hex_value. revert acc.
  induction digits as [|c digits IH]; intros acc.
  - simpl. lia.
  - cbn [fold_left]. rewrite IH, (IH (0 * 16 + digit_value c)).
    rewrite length_cons, Nat2Z.inj_succ, Z.pow_succ_r by lia. lia.
Qed.

Lemma hex_value_bound (digits : list ascii) :
  0 ≤ hex_value digits < 16 ^ Z.of_nat (length digits).
Proof.
  induction digits as [|c digits IH] using rev_ind.
  - unfold hex_value. simpl. lia.
  - rewrite hex_value_snoc, length_app. simpl length.
    rewrite Nat2Z.inj_add, Z.pow_add_r by lia.
    pose proof (digit_value_bound c). change (16 ^ Z.of_nat 1) with 16. nia.
Qed.

(** The digit that has [k] digits behind it is the [k]-th base 16 digit of
    the value. *)
Lemma hex_value_digit (front back : list ascii) (c : ascii) :
  digit_value c
  = (hex_value (front ++ c :: back) / 16 ^ Z.of_nat (length back)) mod 16.
Proof.
  unfold hex_value at 1. rewrite fold_left_app. cbn [fold_left].
  rewrite hex_value_from. fold (hex_value front).
  pose proof (hex_value_bound back) as Hback.
  pose proof (digit_value_bound c) as Hc.
  assert (0 < 16 ^ Z.of_nat (length back)) as Hpos by (apply Z.pow_pos_nonneg; lia).
  rewrite Z.div_add_l by lia.
  rewrite (Z.div_small (hex_value back)) by lia.
  rewrite Z.add_0_r, Z.add_comm, Z.mod_add by lia.
  by rewrite Z.mod_small.
Qed.

(** The version nibble, bits 76 to 79, is 4. *)
Lemma set_version4_version (x : Z) :
  (set_version4 x / 16 ^ 19) mod 16 = 4.
Proof.
  change (16 ^ 19) with (2 ^ 76). change 16 with (2 ^ 4).
  rewrite <- Z.shiftr_div_pow2, <- Z.land_ones by lia.
  apply Z.bits_inj'. intros i Hi.
  rewrite Z.land_spec, Z.shiftr_spec by lia.
  destruct (decide (i < 4)) as [Hlt|Hge].
  - unfold set_version4. cbv zeta.
    repeat (rewrite Z.lor_spec || rewrite Z.land_spec).
    assert (i = 0 ∨ i = 1 ∨ i = 2 ∨ i = 3) as [-> | [-> | [-> | ->]]] by lia;
      match goal with |- context [Z.testbit x ?k] => destruct (Z.testbit x k) end;
        vm_compute; reflexivity.
  - rewrite (Z.ones_spec_high 4 i) by lia. rewrite andb_false_r. symmetry.
    apply (proj1 (below_pow2_bits 4 3 ltac:(lia) ltac:(lia))); [done | lia].
Qed.

(** The variant nibble, bits 60 to 63, is binary 10xx. *)
Lemma set_version4_variant (x : Z) :
  8 ≤ (set_version4 x / 16 ^ 15) mod 16 ≤ 11.
Proof.
  change (16 ^ 15) with (2 ^ 60). change 16 with (2 ^ 4).
  rewrite <- Z.shiftr_div_pow2, <- Z.land_ones by lia.
  assert (Z.land (Z.shiftr (set_version4 x) 60) (Z.ones 4)
          = Z.lor 8 (Z.land (Z.shiftr x 60) (Z.ones 2))) as ->.
  { apply Z.bits_inj'. intros i Hi.
    rewrite Z.land_spec, Z.lor_spec, Z.land_spec, !Z.shiftr_spec by lia.
    destruct (decide (i < 4)) as [Hlt|Hge].
    - unfold set_version4. cbv zeta.
      repeat (rewrite Z.lor_spec || rewrite Z.land_spec).
      assert (i = 0 ∨ i = 1 ∨ i = 2 ∨ i = 3) as [-> | [-> | [-> | ->]]] by lia;
        match goal with |- context [Z.testbit x ?k] => destruct (Z.testbit x k) end;
        vm_compute; reflexivity.
    - rewrite (Z.ones_spec_high 4 i), (Z.ones_spec_high 2 i) by lia.
      rewrite !andb_false_r, orb_false_r. symmetry.
      apply (proj1 (below_pow2_bits 8 4 ltac:(lia) ltac:(lia))); [done | lia]. }
  rewrite Z.land_ones by lia.
  pose proof (Z.mod_pos_bound (Z.shiftr x 60) (2 ^ 2) ltac:(lia)) as Hy.
  change (2 ^ 2) with 4 in *.
  assert (Z.shiftr x 60 mod 4 = 0 ∨ Z.shiftr x 60 mod 4 = 1
          ∨ Z.shiftr x 60 mod 4 = 2 ∨ Z.shiftr x 60 mod 4 = 3)
    as [-> | [-> | [-> | ->]]] by lia; vm_compute; split; discriminate.
Qed.

Lemma hex_digit_of_value (c : ascii) :
  is_hex_digit c = true → c = hex_digit (digit_value c).
Proof.
  unfold is_hex_digit. intros (d & Hd & Heq)%existsb_exists.
  apply Ascii.eqb_eq in Heq. subst d. simpl in Hd.
  repeat (destruct Hd as [<-|Hd]; [reflexivity|]). done.
Qed.

(** The digit of a 32-digit numeral at position [k]. *)
Lemma format_032x_digit (n : Z) (k : nat) :
  0 ≤ n < 2 ^ 128 → (k < 32)%nat →
  format_032x n !! k = Some (hex_digit ((n / 16 ^ Z.of_nat (31 - k)) mod 16)).
Proof.
  intros Hn Hk. destruct (format_032x_spec n Hn) as (Hlen & Hhex & Hval).
  destruct (lookup_lt_is_Some_2 (format_032x n) k) as [c Hc]; [lia|].
  rewrite Hc. f_equal.
  rewrite (hex_digit_of_value c)
    by (by eapply (proj1 (Forall_forall _ _) Hhex), list_elem_of_lookup_2).
  f_equal. rewrite (hex_value_digit (take k (format_032x n))
                      (drop (S k) (format_032x n)) c).
  rewrite take_drop_middle by done. rewrite Hval, length_drop, Hlen.
  by replace (32 - S k)%nat with (31 - k)%nat by lia.
Qed.
End version.

Lemma hyphenated_positions (hex : list ascii) :
  length hex = 32 →
  hyphenate [slice 0 8 hex; slice 8 12 hex; slice 12 16 hex;
             slice 16 20 hex; drop 20 hex] !! 14 = hex !! 12
  ∧ hyphenate [slice 0 8 hex; slice 8 12 hex; slice 12 16 hex;
               slice 16 20 hex; drop 20 hex] !! 19 = hex !! 16.
Proof.
  intros Hlen.
  do 32 (destruct hex as [|? hex]; [discriminate Hlen|]).
  destruct hex; [|discriminate Hlen]. split; reflexivity.
Qed.

(** X13.  Every identifier made by [/] shows that it is a random (version
    4) UUID of the RFC 4122 variant: its fifteenth character is [4] and
    its twentieth is one of [8], [9], [a], [b], whatever the random bytes
    were. *)
Theorem room_id_is_version_4 (w : world) :
  let room_id := uuid_str (uuid4 w).1 in
  String.get 14 room_id = Some "4"%char
  ∧ ∃ c, String.get 19 room_id = Some c ∧ c ∈ ["8"; "9"; "a"; "b"]%char.
Proof.
  intros room_id. unfold room_id. rewrite uuid4_int.
  set (x := int_from_bytes (map (urandom w) (seq (drawn w) 16))).
  assert (0 ≤ set_version4 x < 2 ^ 128)%Z as Hint.
  { apply set_version4_bound.
    pose proof (int_from_bytes_bound (map (urandom w) (seq (drawn w) 16))) as H.
    rewrite length_map, length_seq in H. exact H. }
  pose proof (format_032x_digit _ 12 Hint ltac:(lia)) as H12.
  pose proof (format_032x_digit _ 16 Hint ltac:(lia)) as H16.
  change (Z.of_nat (31 - 12)) with 19%Z in H12.
  change (Z.of_nat (31 - 16)) with 15%Z in H16.
  rewrite set_version4_version in H12.
  pose proof (set_version4_variant x) as Hvariant.
  destruct (format_032x_spec _ Hint) as (Hlen & _ & _).
  destruct (hyphenated_positions _ Hlen) as [P14 P19].
  unfold uuid_str, uuid_groups. cbv zeta. rewrite !string_get_list.
  rewrite P14, P19, H12, H16. clear P14 P19 H12 H16 Hlen.
  split; [reflexivity|]. eexists. split; [reflexivity|].
  revert Hvariant.
  generalize ((set_version4 x / 16 ^ 15) mod 16)%Z. intros v Hv.
  assert (v = 8 ∨ v = 9 ∨ v = 10 ∨ v = 11)%Z as [-> | [-> | [-> | ->]]] by lia;
    simpl; rewrite !elem_of_cons;
    repeat (first [left; reflexivity | right]).
Qed.

(** X14.  A broadcast that runs to its end without an exception in the
    room reaches everybody who is in the room when it ends: the
    connections that joined while it was under way are sent the text as
    well, each exactly once. *)
Theorem broadcast_reaches_newcomers s websocket room_id data evs s1 s' l' :
  reachable s → tasks s !! websocket = Some (room_id, Receiving) →
  run (Received websocket data :: evs) s = Some s1 →
  (∀ d, Received websocket d ∉ evs) →
  (∀ w e p, Raised w e ∈ evs → tasks s1 !! w ≠ Some (room_id, p)) →
  step (Sent websocket) s1 = Some s' →
  tasks s' !! websocket = Some (room_id, Receiving) →
  connections s' !! room_id = Some l' →
  ∀ c, c ∈ l' → c ≠ websocket →
       deliveries c data (calls_of websocket (new_calls s s')) = 1.
Proof.
  intros Hreach Ht Hrun Hrecv Hquiet Hsent Hdone Hl' c Hin Hne.
  pose proof (reachable_consistent _ Hreach) as Hc.
  destruct (task_member _ Hc _ _ _ Ht I) as (l & Hl & _).
  assert (step (Received websocket data) s
          = Some (relay websocket room_id data 0 s)) as Hstep
    by (simpl; by rewrite Ht).
  simpl in Hrun. rewrite Ht in Hrun.
  pose proof (step_consistent _ _ _ Hc Hstep) as Hc0.
  pose proof (run_consistent _ _ _ Hc0 Hrun) as Hc1.
  pose proof (broadcasting_start s websocket room_id data l Hc Ht Hl) as Hb.
  pose proof (broadcasting_run _ _ _ _ _ _ _ _ Hc0 Hb Hrun Hrecv Hquiet) as Hb1.
  rewrite <- (new_calls_step_run _ _ _ _ _ Hstep Hrun) in Hb1.
  destruct Hb1 as (l1 & j & Hl1 & _ & Hj & Hcalls & [Hsending|[Hidle _]]);
    [|by simpl in Hsent; rewrite Hidle in Hsent].
  simpl in Hsent. rewrite Hsending in Hsent. injection Hsent as <-.
  destruct (relay_joined s1 websocket room_id _ data j Hc1 Hsending I)
    as (k & Hk & [(x & i' & _ & Heq)|[Hnext Heq]]).
  { rewrite Heq in Hdone. simpl in Hdone.
    by rewrite lookup_insert_eq in Hdone. }
  rewrite Hl1 in Hk. injection Hk as <-.
  rewrite Heq in Hl'. simpl in Hl'. rewrite Hl1 in Hl'. injection Hl' as <-.
  assert (new_calls s (relay websocket room_id data j s1) = new_calls s s1)
    as ->.
  { unfold new_calls. by rewrite Heq. }
  rewrite Hcalls, (for_next_peers_None _ _ _ Hnext), deliveries_map.
  apply count_NoDup.
  - apply peers_NoDup. by eapply rooms_NoDup.
  - by apply peers_elem_of.
Qed.

Lemma broadcast_reaches_newcomers_witness :
  ∃ s1 s', run [ Received P1 "hello"; Connect 4 "abc"; Accepted 4;
                 Sent P1; Sent P1 ] abc_room = Some s1
    ∧ step (Sent P1) s1 = Some s'
    ∧ connections s' !! "abc"%string = Some [P1; P2; P3; 4]
    ∧ deliveries 4 "hello" (calls_of P1 (new_calls abc_room s')) = 1.
Proof.
  destruct (run [ Received P1 "hello"; Connect 4 "abc"; Accepted 4;
                  Sent P1; Sent P1 ] abc_room) as [s1|] eqn:Hrun;
    [|vm_compute in Hrun; discriminate].
  destruct (step (Sent P1) s1) as [s'|] eqn:Hstep;
    [|vm_compute in Hrun; injection Hrun as <-; vm_compute in Hstep; discriminate].
  assert (tasks s' !! P1 = Some ("abc"%string, Receiving)
          ∧ connections s' !! "abc"%string = Some [P1; P2; P3; 4]) as [Hdone Hl'].
  { vm_compute in Hrun. injection Hrun as <-.
    vm_compute in Hstep. injection Hstep as <-. vm_compute. done. }
  assert (tasks abc_room !! P1 = Some ("abc"%string, Receiving)) as Ht
    by (vm_compute; reflexivity).
  assert (∀ d, Received P1 d ∉ [Connect 4 "abc"; Accepted 4; Sent P1; Sent P1])
    as Hrecv.
  { intros d Hin.
    repeat (apply elem_of_cons in Hin as [Heq|Hin]; [discriminate|]).
    by apply not_elem_of_nil in Hin. }
  assert (∀ w e p, Raised w e ∈ [Connect 4 "abc"; Accepted 4; Sent P1; Sent P1] →
                   tasks s1 !! w ≠ Some ("abc"%string, p)) as Hquiet.
  { intros w e p Hin.
    repeat (apply elem_of_cons in Hin as [Heq|Hin]; [discriminate|]).
    by apply not_elem_of_nil in Hin. }
  assert (4 ∈ [P1; P2; P3; 4]) as Hin
    by (do 3 (apply elem_of_cons; right); apply elem_of_cons; by left).
  exists s1, s'. split; [reflexivity|]. split; [exact Hstep|].
  split; [exact Hl'|].
  exact (broadcast_reaches_newcomers abc_room P1 "abc" "hello"
           [Connect 4 "abc"; Accepted 4; Sent P1; Sent P1] s1 s' [P1; P2; P3; 4]
           abc_room_reachable Ht Hrun Hrecv Hquiet Hstep Hdone Hl' 4 Hin
           ltac:(discriminate)).
Defined.

(** X15.  Relaying only reads the registry: a step that changes the
    [connections] dictionary is the join of a handler whose [accept]
    returned or the clean-up of a handler that got an exception; a new
    connection, a received text and a finished send leave it as it is. *)
Theorem only_join_and_leave_write s ev s' :
  reachable s → step ev s = Some s' → connections s' ≠ connections s →
  (∃ w, ev = Accepted w) ∨ (∃ w e, ev = Raised w e).
Proof.
  intros Hc%reachable_consistent Hstep Hchanged.
  destruct ev as [ws r|ws|ws data|ws|ws e];
    [|left; by exists ws| | |right; by exists ws, e]; exfalso; apply Hchanged;
    simpl in Hstep;
    destruct (tasks s !! ws) as [[r0 p]|] eqn:Ht; try done;
    try (destruct p; try done); injection Hstep as <-; try done.
  - by destruct (relay_joined s ws r0 Receiving data 0 Hc Ht I)
      as (k & _ & [(c & i' & _ & ->)|[_ ->]]).
  - by destruct (relay_joined s ws r0 (Sending data i) data i Hc Ht I)
      as (k & _ & [(c & i' & _ & ->)|[_ ->]]).
Qed.

Lemma only_join_and_leave_write_witness :
  ∃ s', step (Accepted 4) abc_room_pending = Some s'
    ∧ connections s' ≠ connections abc_room_pending
    ∧ ((∃ w, Accepted 4 = Accepted w) ∨ (∃ w e, Accepted 4 = Raised w e)).
Proof.
  destruct (step (Accepted 4) abc_room_pending) as [s'|] eqn:Hstep;
    [|vm_compute in Hstep; discriminate].
  assert (connections s' ≠ connections abc_room_pending) as Hchanged.
  { vm_compute in Hstep. injection Hstep as <-. vm_compute. discriminate. }
  exists s'. split; [reflexivity|]. split; [exact Hchanged|].
  exact (only_join_and_leave_write abc_room_pending (Accepted 4) s'
           abc_room_pending_reachable Hstep Hchanged).
Defined.
